(** * Embedded poll extraction: a model of [scrape_polls.py]

    The development follows the order of the source file: the string
    primitives the script relies on, the JSON values it decodes, the
    locator / boundary scanner / decoder that make up
    [extract_json_polls], the aggregating loop [extract_all_polls] and the
    normaliser [format_polls_data].  Theorems come after the definitions. *)

From Stdlib Require Import Ascii String List ZArith Lia Bool Arith.
Import ListNotations.

Open Scope char_scope.
Open Scope nat_scope.

(** ** Text

    A Python [str] is modelled as a list of 8-bit characters; offsets are
    natural numbers (the script never produces a negative index: the only
    negative number it manipulates is the [-1] sentinel, modelled by
    [None]). *)

Definition text := list ascii.

Definition str (s : string) : text := list_ascii_of_string s.

(** The two characters all the quoting rules revolve around. *)
Definition DQ : ascii := "034".   (* the double quote *)
Definition BS : ascii := "092".   (* the backslash *)

Fixpoint text_eqb (a b : text) : bool :=
  match a, b with
  | [], [] => true
  | x :: a', y :: b' => Ascii.eqb x y && text_eqb a' b'
  | _, _ => false
  end.

(** [s.startswith(sub)], the test behind [find], [replace] and [in]. *)
Fixpoint startswith (sub s : text) : bool :=
  match sub, s with
  | [], _ => true
  | _ :: _, [] => false
  | x :: sub', y :: s' => Ascii.eqb x y && startswith sub' s'
  end.

(** [find_in sub s pos]: lowest offset of [sub] in [s], where [s] itself
    sits at offset [pos] of the whole text. *)
Fixpoint find_in (sub s : text) (pos : nat) : option nat :=
  if startswith sub s then Some pos
  else match s with
       | [] => None
       | _ :: s' => find_in sub s' (S pos)
       end.

(** [s.find(sub, start)]; [None] stands for Python's [-1]. *)
Definition find (s sub : text) (start : nat) : option nat :=
  if length s <? start then None else find_in sub (skipn start s) start.

(** [s[i]] for an index in range (every use is guarded by [i < len(s)]). *)
Definition char_at (s : text) (i : nat) : ascii := nth i s zero.

(** [s[a:b]] for [0 <= a]; Python clamps both ends to the text. *)
Definition slice (s : text) (a b : nat) : text := firstn (b - a) (skipn a s).

(** [s.replace(old, new)] for a non-empty [old]: non-overlapping
    occurrences, leftmost first.  [skip] counts the characters of a
    replaced occurrence that still have to be dropped. *)
Fixpoint replace_from (old new s : text) (skip : nat) : text :=
  match s with
  | [] => []
  | c :: s' =>
      match skip with
      | S k => replace_from old new s' k
      | O => if startswith old s
             then new ++ replace_from old new s' (length old - 1)
             else c :: replace_from old new s' 0
      end
  end.

Definition replace (s old new : text) : text := replace_from old new s 0.

(** [sub in s]. *)
Definition contains (sub s : text) : bool :=
  match find_in sub s 0 with Some _ => true | None => false end.

(** [s.lower()] on 8-bit characters: the ASCII capitals and the Latin-1
    capitals (all of 192..222 but the multiplication sign 215). *)
Definition lower_char (c : ascii) : ascii :=
  let n := nat_of_ascii c in
  if ((65 <=? n) && (n <=? 90)) || ((192 <=? n) && (n <=? 222) && negb (n =? 215))
  then ascii_of_nat (n + 32) else c.

Definition lower (s : text) : text := map lower_char s.

(** ** The result of a bounded loop

    The two [while] loops of the script are modelled with an iteration
    budget.  [OutOfFuel] is kept apart from every value the loop can
    return, and the theorems below show the budgets used are never
    exhausted. *)

Inductive run (A : Type) : Type :=
| OutOfFuel : run A
| Done : A -> run A.
Arguments OutOfFuel {A}.
Arguments Done {A} _.

(** ** Locator (lines 68-80 of [extract_json_polls]) *)

(** ['\\"polls\\":['] and ['"polls":[']. *)
Definition escaped_anchor : text :=
  [BS; DQ] ++ str "polls" ++ [BS; DQ] ++ str ":[".
Definition unescaped_anchor : text :=
  [DQ] ++ str "polls" ++ [DQ] ++ str ":[".

(** [len('\\"polls\\":')] and [len('"polls":')]: the anchor without its
    bracket, so that [array_start] is the offset of the bracket itself. *)
Definition escaped_key_len : nat := length escaped_anchor - 1.
Definition unescaped_key_len : nat := length unescaped_anchor - 1.

(** Returns [(array_start, escaped)], or [None] when neither anchor occurs
    at or after [start_pos]. *)
Definition find_anchor (html_content : text) (start_pos : nat)
  : option (nat * bool) :=
  match find html_content escaped_anchor start_pos with
  | Some polls_start => Some (polls_start + escaped_key_len, true)
  | None =>
      match find html_content unescaped_anchor start_pos with
      | Some polls_start => Some (polls_start + unescaped_key_len, false)
      | None => None
      end
  end.

(** ** Boundary scanner (lines 82-131 of [extract_json_polls]) *)

Record scan_state : Type := mkScan {
  pos : nat;             (* i *)
  bracket_count : Z;
  in_string : bool
}.

Inductive step_result : Type :=
| Continue (s : scan_state)   (* fall through to the next iteration *)
| Closed (i : nat).           (* [bracket_count] came back to zero at [i] *)

(** One iteration of the [while] body, for [pos s < len(html_content)]. *)
Definition scan_step (html_content : text) (escaped : bool) (s : scan_state)
  : step_result :=
  let i := pos s in
  let char := char_at html_content i in
  if escaped && (i + 1 <? length html_content)
     && text_eqb (slice html_content i (i + 2)) [BS; DQ]
  then Continue (mkScan (i + 2) (bracket_count s) (negb (in_string s)))
  else
    let in_string' :=
      if negb escaped && Ascii.eqb char DQ
      then if (0 <? i) && Ascii.eqb (char_at html_content (i - 1)) BS
           then in_string s
           else negb (in_string s)
      else in_string s in
    if negb in_string'
    then if Ascii.eqb char "["
         then Continue (mkScan (i + 1) (bracket_count s + 1) in_string')
         else if Ascii.eqb char "]"
              then if (bracket_count s - 1 =? 0)%Z
                   then Closed i
                   else Continue (mkScan (i + 1) (bracket_count s - 1) in_string')
              else Continue (mkScan (i + 1) (bracket_count s) in_string')
    else Continue (mkScan (i + 1) (bracket_count s) in_string').

(** The [while i < len(html_content)] loop.  [Done (Some e)]: the array
    closes and [e = i + 1] is the offset just after its last bracket;
    [Done None]: the text ended first. *)
Fixpoint scan_loop (fuel : nat) (html_content : text) (escaped : bool)
  (s : scan_state) : run (option nat) :=
  if pos s <? length html_content then
    match fuel with
    | O => OutOfFuel
    | S fuel' =>
        match scan_step html_content escaped s with
        | Closed i => Done (Some (i + 1))
        | Continue s' => scan_loop fuel' html_content escaped s'
        end
    end
  else Done None.

(** The scanner started at [array_start] with [bracket_count = 0] and
    [in_string = False].  Every iteration advances [i], so [len] rounds
    are enough (see [scan_loop_enough_fuel]). *)
Definition scan_array (html_content : text) (escaped : bool)
  (array_start : nat) : option nat :=
  match scan_loop (length html_content) html_content escaped
          (mkScan array_start 0 false) with
  | Done r => r
  | OutOfFuel => None
  end.

(** ** JSON values

    What [json.loads] returns: [None], booleans, integers (unbounded, as in
    Python), floats (kept as their literal, since no operation of the
    script looks inside one), strings, lists and dicts.  A dict is an
    association list in insertion order with distinct keys. *)

#[local] Set Warnings "-register-all".

Inductive json : Type :=
| JNull
| JBool (b : bool)
| JInt (n : Z)
| JFloat (literal : text)
| JStr (s : text)
| JArr (items : list json)
| JObj (members : list (text * json)).

(** [d.get(key)]: [None] when the key is absent. *)
Fixpoint dict_get (key : text) (d : list (text * json)) : option json :=
  match d with
  | [] => None
  | (k, v) :: d' => if text_eqb k key then Some v else dict_get key d'
  end.

(** [d.get(key, default)]. *)
Definition dict_get_default (key : text) (default : json)
  (d : list (text * json)) : json :=
  match dict_get key d with Some v => v | None => default end.

(** [d[key] = v]: a key already present keeps its place and takes the new
    value, a new key goes last. *)
Fixpoint dict_set (key : text) (v : json) (d : list (text * json))
  : list (text * json) :=
  match d with
  | [] => [(key, v)]
  | (k, w) :: d' =>
      if text_eqb k key then (k, v) :: d' else (k, w) :: dict_set key v d'
  end.

(** [isinstance(p, dict)]. *)
Definition is_dict (p : json) : bool :=
  match p with JObj _ => true | _ => false end.

(** ** A model of [json.loads]

    The library decoder is not part of the repository; it is modelled by a
    recursive-descent parser for the JSON grammar as Python reads it
    (strict mode, the [NaN] / [Infinity] literals included) over 8-bit
    text.  [None] stands for [json.JSONDecodeError].

    Two limits of this model.  Characters are 8-bit, so a [\uXXXX]
    escape denotes a character of the model only up to [00FF]; on an
    escape above that the parser answers [None] although the library
    decodes it: texts holding such escapes are outside the model.  And
    the interpreter's resource limits are not modelled: the library raises
    [RecursionError] on very deep nesting and [ValueError] on integers of
    thousands of digits, neither of which the script catches, where this
    parser returns a value.  No theorem about the locator, the scanner,
    the two loops or the normaliser depends on what this parser answers;
    the end-to-end example uses it on one text without wide escapes,
    deep nesting or long integers. *)

Definition is_ws (c : ascii) : bool :=
  Ascii.eqb c " " || Ascii.eqb c "009" || Ascii.eqb c "010" || Ascii.eqb c "013".

Fixpoint skip_ws (s : text) : text :=
  match s with
  | c :: r => if is_ws c then skip_ws r else s
  | [] => []
  end.

Definition is_digit (c : ascii) : bool :=
  (48 <=? nat_of_ascii c) && (nat_of_ascii c <=? 57).

Definition digit_value (c : ascii) : Z := Z.of_nat (nat_of_ascii c - 48).

Definition hex_value (c : ascii) : option nat :=
  let n := nat_of_ascii c in
  if (48 <=? n) && (n <=? 57) then Some (n - 48)
  else if (65 <=? n) && (n <=? 70) then Some (n - 55)
  else if (97 <=? n) && (n <=? 102) then Some (n - 87)
  else None.

Definition hex4 (a b c d : ascii) : option nat :=
  match hex_value a, hex_value b, hex_value c, hex_value d with
  | Some x, Some y, Some z, Some w => Some (((x * 16 + y) * 16 + z) * 16 + w)
  | _, _, _, _ => None
  end.

(** The one-letter escapes of a JSON string. *)
Definition unescape_char (e : ascii) : option ascii :=
  if Ascii.eqb e DQ then Some DQ
  else if Ascii.eqb e BS then Some BS
  else match e with
       | "/" => Some "/"
       | "b" => Some "008"
       | "f" => Some "012"
       | "n" => Some "010"
       | "r" => Some "013"
       | "t" => Some "009"
       | _ => None
       end.

(** The body of a string literal, after its opening quote: the decoded
    characters and the text after the closing quote. *)
Fixpoint scan_string (s : text) (acc : text) : option (text * text) :=
  match s with
  | [] => None
  | c :: r =>
      if Ascii.eqb c DQ then Some (rev acc, r)
      else if Ascii.eqb c BS then
        match r with
        | "u" :: h1 :: h2 :: h3 :: h4 :: r' =>
            match hex4 h1 h2 h3 h4 with
            | Some n => if n <? 256 then scan_string r' (ascii_of_nat n :: acc)
                        else None
            | None => None
            end
        | e :: r' =>
            match unescape_char e with
            | Some x => scan_string r' (x :: acc)
            | None => None
            end
        | [] => None
        end
      else if nat_of_ascii c <? 32 then None
      else scan_string r (c :: acc)
  end.

(** Leading decimal digits and what follows them. *)
Fixpoint take_digits (s : text) : text * text :=
  match s with
  | c :: r => if is_digit c
              then let '(ds, rest) := take_digits r in (c :: ds, rest)
              else ([], s)
  | [] => ([], [])
  end.

Definition digits_value (ds : text) : Z :=
  fold_left (fun acc c => (acc * 10 + digit_value c)%Z) ds 0%Z.

(** The integer part of a number, without its sign: a lone zero, or
    digits that do not start with zero. *)
Definition take_int_part (s : text) : option (text * text) :=
  match s with
  | "0" :: r => Some (["0"], r)
  | c :: _ => if is_digit c then Some (take_digits s) else None
  | [] => None
  end.

(** The optional fraction: a dot and at least one digit. *)
Definition take_frac (s : text) : text * text :=
  match s with
  | "." :: r =>
      match take_digits r with
      | ([], _) => ([], s)
      | (ds, rest) => ("." :: ds, rest)
      end
  | _ => ([], s)
  end.

(** The optional exponent: e or E, an optional sign, at least one digit. *)
Definition take_exp (s : text) : text * text :=
  match s with
  | e :: r =>
      if Ascii.eqb e "e" || Ascii.eqb e "E" then
        let '(sign, r1) :=
          match r with
          | "+" :: r1 => (["+"], r1)
          | "-" :: r1 => (["-"], r1)
          | _ => ([], r)
          end in
        match take_digits r1 with
        | ([], _) => ([], s)
        | (ds, rest) => (e :: sign ++ ds, rest)
        end
      else ([], s)
  | [] => ([], s)
  end.

Definition parse_number (s : text) : option (json * text) :=
  let '(neg, s1) := match s with "-" :: r => (true, r) | _ => (false, s) end in
  match take_int_part s1 with
  | None => None
  | Some (ds, r1) =>
      let '(frac, r2) := take_frac r1 in
      let '(exp, r3) := take_exp r2 in
      match frac, exp with
      | [], [] =>
          Some (JInt (if neg then - digits_value ds else digits_value ds)%Z, r3)
      | _, _ =>
          Some (JFloat ((if neg then ["-"] else []) ++ ds ++ frac ++ exp), r3)
      end
  end.

(** A fixed word at the head of the text. *)
Definition literal (word : string) (v : json) (s : text)
  : option (json * text) :=
  if startswith (str word) s
  then Some (v, skipn (length (str word)) s)
  else None.

(** One value; [parse_items] reads the elements of a list from the first
    one on, [parse_members] the pairs of a dict from the quote of the first
    key on.  Every second call consumes a character, which bounds the
    nesting by the budget given in [json_loads]. *)
Fixpoint parse_value (fuel : nat) (s : text) {struct fuel}
  : option (json * text) :=
  match fuel with
  | O => None
  | S fuel' =>
      match s with
      | [] => None
      | c :: r =>
          if Ascii.eqb c DQ then
            match scan_string r [] with
            | Some (x, r') => Some (JStr x, r')
            | None => None
            end
          else
            match c with
            | "{" =>
                match skip_ws r with
                | "}" :: r' => Some (JObj [], r')
                | r1 => parse_members fuel' r1 []
                end
            | "[" =>
                match skip_ws r with
                | "]" :: r' => Some (JArr [], r')
                | r1 => parse_items fuel' r1 []
                end
            | "n" => literal "null" JNull s
            | "t" => literal "true" (JBool true) s
            | "f" => literal "false" (JBool false) s
            | "N" => literal "NaN" (JFloat (str "NaN")) s
            | "I" => literal "Infinity" (JFloat (str "Infinity")) s
            | "-" =>
                match r with
                | "I" :: _ => literal "-Infinity" (JFloat (str "-Infinity")) s
                | _ => parse_number s
                end
            | _ => parse_number s
            end
      end
  end

with parse_items (fuel : nat) (s : text) (acc : list json) {struct fuel}
  : option (json * text) :=
  match fuel with
  | O => None
  | S fuel' =>
      match parse_value fuel' s with
      | None => None
      | Some (v, r) =>
          match skip_ws r with
          | "," :: r' => parse_items fuel' (skip_ws r') (v :: acc)
          | "]" :: r' => Some (JArr (rev (v :: acc)), r')
          | _ => None
          end
      end
  end

with parse_members (fuel : nat) (s : text) (acc : list (text * json))
  {struct fuel} : option (json * text) :=
  match fuel with
  | O => None
  | S fuel' =>
      match s with
      | [] => None
      | q :: r =>
          if Ascii.eqb q DQ then
            match scan_string r [] with
            | None => None
            | Some (key, r1) =>
                match skip_ws r1 with
                | ":" :: r2 =>
                    match parse_value fuel' (skip_ws r2) with
                    | None => None
                    | Some (v, r3) =>
                        match skip_ws r3 with
                        | "," :: r4 =>
                            parse_members fuel' (skip_ws r4) (dict_set key v acc)
                        | "}" :: r4 => Some (JObj (dict_set key v acc), r4)
                        | _ => None
                        end
                    end
                | _ => None
                end
            end
          else None
      end
  end.

Definition json_loads (s : text) : option json :=
  match parse_value (2 * length s + 2) (skip_ws s) with
  | Some (v, r) => match skip_ws r with [] => Some v | _ :: _ => None end
  | None => None
  end.

(** ** Decoder (lines 113-127 of [extract_json_polls]) *)

(** The two [replace] calls applied to a span found in escaped form. *)
Definition unescape (escaped : bool) (json_str : text) : text :=
  if escaped
  then replace (replace json_str [BS; DQ] [DQ]) [BS; BS] [BS]
  else json_str.

(** [[p for p in polls if isinstance(p, dict)]].  The span handed to
    [json.loads] starts with a bracket, so what comes back is a list (see
    [extract_json_polls_decodes_list]); iterating a dict or a string would
    yield strings only, which the filter drops. *)
Definition only_dicts (polls : json) : list json :=
  match polls with
  | JArr items => filter is_dict items
  | _ => []
  end.

Definition decode (escaped : bool) (json_str : text) : option (list json) :=
  match json_loads (unescape escaped json_str) with
  | Some polls => Some (only_dicts polls)
  | None => None
  end.

(** ** [extract_json_polls]

    [Some (polls, end_position)], or [None] for the source's
    [(None, -1)]: no anchor, no closing bracket before the end of the
    text, or a span [json.loads] rejects. *)
Definition extract_json_polls (html_content : text) (start_pos : nat)
  : option (list json * nat) :=
  match find_anchor html_content start_pos with
  | None => None
  | Some (array_start, escaped) =>
      match scan_array html_content escaped array_start with
      | None => None
      | Some array_end =>
          let json_str := slice html_content array_start array_end in
          match decode escaped json_str with
          | Some polls => Some (polls, array_end)
          | None => None
          end
      end
  end.

(** ** Aggregator: [extract_all_polls] *)

(** The [while True] loop; the [print] has no part in the result. *)
Fixpoint extract_all_polls_loop (fuel : nat) (html_content : text)
  (start_pos : nat) (all_polls : list json) : run (list json) :=
  match fuel with
  | O => OutOfFuel
  | S fuel' =>
      match extract_json_polls html_content start_pos with
      | None => Done all_polls
      | Some (polls, end_pos) =>
          extract_all_polls_loop fuel' html_content end_pos (all_polls ++ polls)
      end
  end.

(** [all_polls if all_polls else None]. *)
Definition nonempty_or_none (all_polls : list json) : option (list json) :=
  match all_polls with
  | [] => None
  | _ :: _ => Some all_polls
  end.

(** Each round moves [start_pos] forward, so [len + 1] rounds are enough
    (see [extract_all_polls_loop_enough_fuel]). *)
Definition extract_all_polls (html_content : text) : option (list json) :=
  match extract_all_polls_loop (S (length html_content)) html_content 0 [] with
  | Done all_polls => nonempty_or_none all_polls
  | OutOfFuel => None
  end.

(** ** Normaliser: [format_polls_data]

    The function can raise: [.get] on something that is not a dict and
    [.lower()] on something that is not a string are [AttributeError]s,
    iterating a number, a boolean or [None] is a [TypeError]. *)

Inductive py_error : Type := TypeError | AttributeError.

Inductive result (A : Type) : Type :=
| Ok (a : A)
| Raise (e : py_error).
Arguments Ok {A} _.
Arguments Raise {A} _.

Definition bind {A B : Type} (r : result A) (k : A -> result B) : result B :=
  match r with
  | Ok a => k a
  | Raise e => Raise e
  end.

Notation "x <- r ;; k" := (bind r (fun x => k))
  (at level 61, r at next level, right associativity).
Notation "' p <- r ;; k" := (bind r (fun x => let 'p := x in k))
  (at level 61, p pattern, r at next level, right associativity).

(** The empty string every default of the normaliser is. *)
Definition EMPTY : json := JStr [].

(** [obj.get(key, default)] on an arbitrary value. *)
Definition get (obj : json) (key : string) (default : json) : result json :=
  match obj with
  | JObj d => Ok (dict_get_default (str key) default d)
  | _ => Raise AttributeError
  end.

(** [v.lower()] on an arbitrary value. *)
Definition get_lower (v : json) : result text :=
  match v with
  | JStr s => Ok (lower s)
  | _ => Raise AttributeError
  end.

(** What [for candidate in v] runs through. *)
Definition iterate (v : json) : result (list json) :=
  match v with
  | JArr items => Ok items
  | JStr s => Ok (map (fun c => JStr [c]) s)
  | JObj members => Ok (map (fun kv => JStr (fst kv)) members)
  | _ => Raise TypeError
  end.

(** The body of the [for candidate in candidates] loop, on the pair
    [(approve, disapprove)]. *)
Definition candidate_step (acc : json * json) (candidate : json)
  : result (json * json) :=
  let '(approve, disapprove) := acc in
  name_value <- get candidate "name" EMPTY ;;
  name <- get_lower name_value ;;
  value <- get candidate "value" EMPTY ;;
  if contains (str "approve") name && negb (contains (str "disapprove") name)
  then Ok (value, disapprove)
  else if contains (str "disapprove") name
       then Ok (approve, value)
       else Ok (approve, disapprove).

Fixpoint candidates_loop (candidates : list json) (acc : json * json)
  : result (json * json) :=
  match candidates with
  | [] => Ok acc
  | candidate :: rest =>
      acc' <- candidate_step acc candidate ;;
      candidates_loop rest acc'
  end.

(** The body of the [for poll in polls] loop: the row appended. *)
Definition format_poll (poll : json) : result (list json) :=
  group_name <- get poll "pollster_group_name" EMPTY ;;
  pollster <- get poll "pollster" group_name ;;
  date <- get poll "date" EMPTY ;;
  sample <- get poll "sampleSize" EMPTY ;;
  candidates <- get poll "candidate" (JArr []) ;;
  items <- iterate candidates ;;
  '(approve, disapprove) <- candidates_loop items (EMPTY, EMPTY) ;;
  spread_data <- get poll "spread" (JObj []) ;;
  let spread :=
    match spread_data with
    | JObj d => dict_get_default (str "value") EMPTY d
    | _ => EMPTY
    end in
  Ok [pollster; date; sample; approve; disapprove; spread].

Fixpoint format_rows (polls : list json) : result (list (list json)) :=
  match polls with
  | [] => Ok []
  | poll :: rest =>
      row <- format_poll poll ;;
      rows <- format_rows rest ;;
      Ok (row :: rows)
  end.

Definition headers : list text :=
  map str ["pollster"; "date"; "sample"; "approve"; "disapprove"; "spread"]%string.

Definition format_polls_data (polls : list json)
  : result (list text * list (list json)) :=
  rows <- format_rows polls ;;
  Ok (headers, rows).

(** The primary path of [extract_poll_table]: extraction followed by
    normalisation when [polls_data] is truthy; [None] when the caller
    falls back to the markup tables. *)
Definition extract_then_format (html_content : text)
  : option (result (list text * list (list json))) :=
  match extract_all_polls html_content with
  | Some polls_data => Some (format_polls_data polls_data)
  | None => None
  end.

(** ** The scanner's rule, read off the text

    The balance property is stated against a reading of the text that
    does not run the scanner: the offsets at which the quote rule of the
    mode toggles, the parity of their number up to an offset, and the
    brackets that stand outside string literals. *)

(** Offset [q] toggles the in-string flag: in escaped form, a backslash
    directly followed by a quote; in unescaped form, a quote not directly
    preceded by a backslash. *)
Definition toggles_at (html_content : text) (escaped : bool) (q : nat) : bool :=
  if escaped
  then Ascii.eqb (char_at html_content q) BS
       && (q + 1 <? length html_content)
       && Ascii.eqb (char_at html_content (q + 1)) DQ
  else Ascii.eqb (char_at html_content q) DQ
       && negb ((0 <? q) && Ascii.eqb (char_at html_content (q - 1)) BS).

(** The offsets [array_start <= q < p]. *)
Definition offsets (array_start p : nat) : list nat :=
  seq array_start (p - array_start).

(** A string literal opened at or after [array_start] is still open at
    offset [p]: an odd number of toggles lies in between. *)
Definition inside_string (html_content : text) (escaped : bool)
  (array_start p : nat) : bool :=
  Nat.odd (length (filter (toggles_at html_content escaped)
                          (offsets array_start p))).

(** How many offsets of [html_content[array_start:array_end]] hold the
    character [c] outside every string literal. *)
Definition count_outside (c : ascii) (html_content : text) (escaped : bool)
  (array_start array_end : nat) : nat :=
  length (filter (fun p => Ascii.eqb (char_at html_content p) c
                           && negb (inside_string html_content escaped array_start p))
                 (offsets array_start array_end)).

(** What the scanner's counters must equal when it stands at offset
    [pos s], having started at [array_start]. *)
Definition scan_inv (html_content : text) (escaped : bool) (array_start : nat)
  (s : scan_state) : Prop :=
  array_start <= pos s
  /\ bracket_count s
     = (Z.of_nat (count_outside "[" html_content escaped array_start (pos s))
        - Z.of_nat (count_outside "]" html_content escaped array_start (pos s)))%Z
  /\ in_string s = inside_string html_content escaped array_start (pos s).

(** A scanner state moved [n] offsets to the right. *)
Definition shift_state (n : nat) (s : scan_state) : scan_state :=
  mkScan (n + pos s) (bracket_count s) (in_string s).

(** ** Sample documents *)

(** A small escaped document for the scanner: a name holding a closing
    bracket, then an item holding a bare quote. *)
Definition scanner_sample : text :=
  str "[{" ++ [BS; DQ] ++ str "a]" ++ [BS; DQ] ++ str ":[1," ++ [DQ]
  ++ str "[2]]}] tail".

(** ** What the aggregator discovers

    [discovered t start found]: the successive calls of
    [extract_json_polls], the first one at [start] and each next one at
    the end offset of the one before, return the record lists and end
    offsets of [found], in that order, and the call after the last one
    finds nothing. *)
Inductive discovered (html_content : text)
  : nat -> list (list json * nat) -> Prop :=
| discovered_stop (start_pos : nat) :
    extract_json_polls html_content start_pos = None ->
    discovered html_content start_pos []
| discovered_next (start_pos end_pos : nat) (polls : list json)
    (rest : list (list json * nat)) :
    extract_json_polls html_content start_pos = Some (polls, end_pos) ->
    discovered html_content end_pos rest ->
    discovered html_content start_pos ((polls, end_pos) :: rest).

(** The end offsets of [found] grow strictly, starting above [start]. *)
Fixpoint increasing_from (start : nat) (ends : list nat) : Prop :=
  match ends with
  | [] => True
  | e :: rest => start < e /\ increasing_from e rest
  end.

(** A page with no anchor of either form. *)
Definition no_anchor_doc : text := str "<html><body>no data</body></html>".

(** One record [{key: n}] in unescaped and in escaped form. *)
Definition plain_record (key : string) (n : string) : text :=
  str "{" ++ [DQ] ++ str key ++ [DQ] ++ str ":" ++ str n ++ str "}".
Definition escaped_record (key : string) (n : string) : text :=
  str "{" ++ [BS; DQ] ++ str key ++ [BS; DQ] ++ str ":" ++ str n ++ str "}".

(** Two arrays in escaped form, one after the other. *)
Definition two_arrays_doc : text :=
  str "x=" ++ escaped_anchor ++ escaped_record "a" "1" ++ str "," ++ escaped_record "b" "2"
  ++ str "];y=" ++ escaped_anchor ++ escaped_record "c" "3" ++ str "];".

(** An array in unescaped form followed by one in escaped form. *)
Definition mixed_doc : text :=
  unescaped_anchor ++ plain_record "a" "1" ++ str "] and "
  ++ escaped_anchor ++ escaped_record "b" "2" ++ str "]".

(** Two arrays without any element. *)
Definition empty_arrays_doc : text :=
  unescaped_anchor ++ str "] " ++ unescaped_anchor ++ str "]".

(** An array holding reference strings only, then an array of records. *)
Definition placeholder_doc : text :=
  unescaped_anchor ++ [DQ] ++ str "$1f" ++ [DQ] ++ str "," ++ [DQ] ++ str "$20"
  ++ [DQ] ++ str "] " ++ unescaped_anchor ++ plain_record "a" "1" ++ str "]".

(** ** The normaliser, read off the record

    The columns of a row described without running the loop over the
    candidate list. *)

(** The name of a candidate entry as the test sees it, and its value. *)
Definition candidate_name (candidate : json) : text :=
  match candidate with
  | JObj d =>
      match dict_get_default (str "name") EMPTY d with
      | JStr s => lower s
      | _ => []
      end
  | _ => []
  end.

Definition candidate_value (candidate : json) : json :=
  match candidate with
  | JObj d => dict_get_default (str "value") EMPTY d
  | _ => EMPTY
  end.

(** The two categories. *)
Definition names_approve (candidate : json) : bool :=
  contains (str "approve") (candidate_name candidate)
  && negb (contains (str "disapprove") (candidate_name candidate)).

Definition names_disapprove (candidate : json) : bool :=
  contains (str "disapprove") (candidate_name candidate).

(** The value of the first, and of the last, entry of a category in list
    order; [default] when the category has no entry. *)
Definition first_match (category : json -> bool) (items : list json)
  (default : json) : json :=
  match List.find category items with
  | Some candidate => candidate_value candidate
  | None => default
  end.

Definition last_match (category : json -> bool) (items : list json)
  (default : json) : json :=
  match List.find category (rev items) with
  | Some candidate => candidate_value candidate
  | None => default
  end.

(** A candidate entry the loop body accepts: a dict whose name, if any, is
    a string. *)
Definition candidate_ok (candidate : json) : bool :=
  match candidate with
  | JObj d =>
      match dict_get (str "name") d with
      | None | Some (JStr _) => true
      | Some _ => false
      end
  | _ => false
  end.

(** What the candidate loop of a record runs through. *)
Definition candidates_of (d : list (text * json)) : result (list json) :=
  iterate (dict_get_default (str "candidate") (JArr []) d).

(** A record whose present fields have the shape the normaliser expects. *)
Definition record_ok (poll : json) : bool :=
  match poll with
  | JObj d =>
      match candidates_of d with
      | Ok items => forallb candidate_ok items
      | Raise _ => false
      end
  | _ => false
  end.

Definition spread_of (d : list (text * json)) : json :=
  match dict_get (str "spread") d with
  | Some (JObj spread_data) => dict_get_default (str "value") EMPTY spread_data
  | _ => EMPTY
  end.

(** The row of a record, column by column. *)
Definition row_of (d : list (text * json)) (items : list json) : list json :=
  [ dict_get_default (str "pollster")
      (dict_get_default (str "pollster_group_name") EMPTY d) d;
    dict_get_default (str "date") EMPTY d;
    dict_get_default (str "sampleSize") EMPTY d;
    last_match names_approve items EMPTY;
    last_match names_disapprove items EMPTY;
    spread_of d ].

(** A row holds the values of its record as they were decoded. *)
Definition keeps_values (poll : json) (row : list json) : Prop :=
  exists d items,
    poll = JObj d
    /\ candidates_of d = Ok items
    /\ length row = 6
    /\ nth 0 row JNull
       = dict_get_default (str "pollster")
           (dict_get_default (str "pollster_group_name") EMPTY d) d
    /\ nth 1 row JNull = dict_get_default (str "date") EMPTY d
    /\ nth 2 row JNull = dict_get_default (str "sampleSize") EMPTY d
    /\ In (nth 3 row JNull) (EMPTY :: map candidate_value items)
    /\ In (nth 4 row JNull) (EMPTY :: map candidate_value items)
    /\ nth 5 row JNull = spread_of d.

(** A row shows the empty string in every column whose source fields are
    all absent from the record. *)
Definition absent_fields_empty (poll : json) (row : list json) : Prop :=
  length row = 6
  /\ forall d,
      poll = JObj d ->
      (dict_get (str "pollster") d = None ->
       dict_get (str "pollster_group_name") d = None -> nth 0 row JNull = EMPTY)
      /\ (dict_get (str "date") d = None -> nth 1 row JNull = EMPTY)
      /\ (dict_get (str "sampleSize") d = None -> nth 2 row JNull = EMPTY)
      /\ (dict_get (str "candidate") d = None ->
          nth 3 row JNull = EMPTY /\ nth 4 row JNull = EMPTY)
      /\ (dict_get (str "spread") d = None -> nth 5 row JNull = EMPTY).

(** [isinstance(v, str)]. *)
Definition is_text (v : json) : bool :=
  match v with JStr _ => true | _ => false end.

(** Sample records. *)
Definition candidate_entry (name : string) (value : Z) : json :=
  JObj [(str "name", JStr (str name)); (str "value", JInt value)].

Definition repeated_entries : list json :=
  [candidate_entry "Approve" 41; candidate_entry "Disapprove" 52;
   candidate_entry "APPROVE (all adults)" 44;
   candidate_entry "Strongly disapprove" 55].

Definition twice_approve : list (text * json) :=
  [(str "candidate", JArr repeated_entries)].

Definition sample_only : json := JObj [(str "sampleSize", JInt 500)].

Definition candidate_number : json := JObj [(str "candidate", JInt 5)].

(** ** The end-to-end example *)

(** A word between escaped quotes. *)
Definition quoted (word : string) : text := [BS; DQ] ++ str word ++ [BS; DQ].

(** The escaped blob of the example: the anchor, one record, the closing
    bracket. *)
Definition acme_blob : text := Eval vm_compute in
  escaped_anchor
  ++ str "{" ++ quoted "pollster" ++ str ":" ++ quoted "Acme"
  ++ str "," ++ quoted "date" ++ str ":" ++ quoted "2024-01-01"
  ++ str "," ++ quoted "sampleSize" ++ str ":500"
  ++ str "," ++ quoted "candidate" ++ str ":["
  ++ str "{" ++ quoted "name" ++ str ":" ++ quoted "Approve"
  ++ str "," ++ quoted "value" ++ str ":45},"
  ++ str "{" ++ quoted "name" ++ str ":" ++ quoted "Disapprove"
  ++ str "," ++ quoted "value" ++ str ":50}]"
  ++ str "," ++ quoted "spread" ++ str ":{" ++ quoted "value" ++ str ":-5}}]".

(** The record the blob decodes to, and its row. *)
Definition acme_record : json :=
  JObj [(str "pollster", JStr (str "Acme"));
        (str "date", JStr (str "2024-01-01"));
        (str "sampleSize", JInt 500);
        (str "candidate", JArr [candidate_entry "Approve" 45;
                                candidate_entry "Disapprove" 50]);
        (str "spread", JObj [(str "value", JInt (-5))])].

Definition acme_row : list json :=
  [JStr (str "Acme"); JStr (str "2024-01-01"); JInt 500; JInt 45; JInt 50;
   JInt (-5)].

(** ** Further readings of the text, for the properties beyond the claims *)

(** Offset [i] holds a closing bracket outside every string literal that
    brings the brackets counted from [array_start] back to balance. *)
Definition closes_at (html_content : text) (escaped : bool)
  (array_start i : nat) : Prop :=
  char_at html_content i = "]"
  /\ inside_string html_content escaped array_start i = false
  /\ count_outside "[" html_content escaped array_start (i + 1)
     = count_outside "]" html_content escaped array_start (i + 1).

(** The escaping the hydration payload applies to a JSON text before it
    is embedded in a string: a backslash in front of every backslash and
    of every quote. *)
Definition escape_char (c : ascii) : text :=
  if Ascii.eqb c BS then [BS; BS]
  else if Ascii.eqb c DQ then [BS; DQ]
  else [c].

Definition escape (s : text) : text := flat_map escape_char s.

(** [sub] occurs in [s] at offset [p]. *)
Definition occurs_at (sub s : text) (p : nat) : Prop :=
  startswith sub (skipn p s) = true.

(** ** The arrays of a document

    The arrays a reader of the page would list, in document order,
    described on the text alone: where anchors occur, where the bracket
    of an anchor is closed, what the span decodes to. *)

(** The anchor of a form and the offset of its bracket inside it. *)
Definition anchor_of (escaped : bool) : text :=
  if escaped then escaped_anchor else unescaped_anchor.

Definition key_len_of (escaped : bool) : nat :=
  if escaped then escaped_key_len else unescaped_key_len.

(** No anchor of either form occurs at or after offset [c]. *)
Definition no_anchor_from (html_content : text) (c : nat) : Prop :=
  forall r, c <= r ->
            ~ occurs_at escaped_anchor html_content r
            /\ ~ occurs_at unescaped_anchor html_content r.

(** [p] is the first offset at or after [c] at which an anchor occurs, and
    the anchor there is of the form [escaped]. *)
Definition first_anchor (html_content : text) (c p : nat) (escaped : bool)
  : Prop :=
  c <= p
  /\ occurs_at (anchor_of escaped) html_content p
  /\ forall r, c <= r < p ->
               ~ occurs_at escaped_anchor html_content r
               /\ ~ occurs_at unescaped_anchor html_content r.

(** The array whose bracket stands at [a] ends just before [e]: offset
    [e - 1] is the first one that closes it. *)
Definition array_span (html_content : text) (escaped : bool) (a e : nat)
  : Prop :=
  a < e
  /\ closes_at html_content escaped a (e - 1)
  /\ forall i, a <= i < e - 1 -> ~ closes_at html_content escaped a i.

(** [document_arrays t c arrays]: from offset [c] on, the document holds
    the arrays [arrays] in this order, each given by its decoded records:
    each array belongs to the first anchor at or after the end of the
    array before it, spans from the bracket of that anchor to the bracket
    that closes it, and decodes; no anchor follows the last array; and no
    escaped anchor stands after an unescaped one. *)
Inductive document_arrays (html_content : text)
  : nat -> list (list json) -> Prop :=
| arrays_end (c : nat) :
    no_anchor_from html_content c ->
    document_arrays html_content c []
| arrays_next (c p e : nat) (escaped : bool) (polls : list json)
    (rest : list (list json)) :
    first_anchor html_content c p escaped ->
    (escaped = false ->
     forall r, p <= r -> ~ occurs_at escaped_anchor html_content r) ->
    array_span html_content escaped (p + key_len_of escaped) e ->
    decode escaped (slice html_content (p + key_len_of escaped) e)
    = Some polls ->
    document_arrays html_content e rest ->
    document_arrays html_content c (polls :: rest).

(** [calls t start found stop]: successive successful calls of
    [extract_json_polls], the first at [start] and each next one at the
    end offset of the one before, return [found] and leave off at
    [stop]. *)
Inductive calls (html_content : text)
  : nat -> list (list json * nat) -> nat -> Prop :=
| calls_none (start_pos : nat) : calls html_content start_pos [] start_pos
| calls_next (start_pos end_pos stop : nat) (polls : list json)
    (rest : list (list json * nat)) :
    extract_json_polls html_content start_pos = Some (polls, end_pos) ->
    calls html_content end_pos rest stop ->
    calls html_content start_pos ((polls, end_pos) :: rest) stop.

(** * Properties *)

(** ** Text primitives *)

Lemma text_eqb_eq (a b : text) : text_eqb a b = true <-> a = b.
Proof.
  revert b; induction a as [|x a IH]; intros [|y b]; simpl;
    try (split; [discriminate | discriminate]); try tauto.
  rewrite andb_true_iff, Ascii.eqb_eq, IH.
  split; [intros [-> ->]; reflexivity | intros H; injection H; auto].
Qed.

Lemma char_at_skipn (s : text) (i : nat) :
  i < length s -> exists r, skipn i s = char_at s i :: r.
Proof.
  revert i; induction s as [|c s IH]; simpl; intros i Hi; [lia|].
  destruct i as [|i]; simpl; [eauto|].
  apply IH; lia.
Qed.

Lemma char_at_S_skipn (s r : text) (i : nat) (c : ascii) :
  skipn i s = c :: r -> skipn (S i) s = r.
Proof.
  revert i; induction s as [|x s IH]; intros [|i]; simpl; try discriminate.
  - intros H; injection H; auto.
  - intros H. destruct s as [|y s']; [destruct i; discriminate H|].
    apply (IH i H).
Qed.

(** The test [html_content[i:i+2] == BS DQ], character by character. *)
Lemma slice_pair (s : text) (i : nat) :
  (i + 1 <? length s) && text_eqb (slice s i (i + 2)) [BS; DQ]
  = Ascii.eqb (char_at s i) BS && (i + 1 <? length s)
    && Ascii.eqb (char_at s (i + 1)) DQ.
Proof.
  destruct (i + 1 <? length s) eqn:Hlen; simpl.
  2:{ rewrite andb_false_r; reflexivity. }
  apply Nat.ltb_lt in Hlen.
  unfold slice. replace (i + 2 - i) with 2 by lia.
  destruct (char_at_skipn s i ltac:(lia)) as [r Hr].
  destruct (char_at_skipn s (i + 1) ltac:(lia)) as [r' Hr'].
  replace (i + 1) with (S i) in Hr' |- * by lia.
  rewrite (char_at_S_skipn _ _ _ _ Hr) in Hr'. subst r.
  rewrite Hr. simpl. rewrite andb_true_r, andb_true_r. reflexivity.
Qed.

(** ** The declarative reading, one offset at a time *)

Lemma offsets_S (array_start p : nat) :
  array_start <= p -> offsets array_start (S p) = offsets array_start p ++ [p].
Proof.
  intros H. unfold offsets.
  replace (S p - array_start) with (S (p - array_start)) by lia.
  rewrite seq_S. do 2 f_equal. lia.
Qed.

Lemma inside_string_S (t : text) (escaped : bool) (array_start p : nat) :
  array_start <= p ->
  inside_string t escaped array_start (S p)
  = xorb (inside_string t escaped array_start p) (toggles_at t escaped p).
Proof.
  intros H. unfold inside_string.
  rewrite (offsets_S _ _ H), filter_app, length_app, Nat.odd_add. simpl.
  destruct (toggles_at t escaped p); reflexivity.
Qed.

Lemma count_outside_S (c : ascii) (t : text) (escaped : bool)
  (array_start p : nat) :
  array_start <= p ->
  count_outside c t escaped array_start (S p)
  = count_outside c t escaped array_start p
    + (if Ascii.eqb (char_at t p) c
          && negb (inside_string t escaped array_start p)
       then 1 else 0).
Proof.
  intros H. unfold count_outside.
  rewrite (offsets_S _ _ H), filter_app, length_app. simpl.
  destruct (Ascii.eqb (char_at t p) c && negb (inside_string t escaped array_start p));
    reflexivity.
Qed.

Lemma scan_inv_start (t : text) (escaped : bool) (array_start : nat) :
  scan_inv t escaped array_start (mkScan array_start 0 false).
Proof.
  unfold scan_inv, count_outside, inside_string, offsets; simpl.
  rewrite Nat.sub_diag. simpl. auto.
Qed.

(** ** One iteration of the scanner *)

(** A toggling offset never holds a bracket. *)
Lemma toggle_not_bracket (t : text) (escaped : bool) (q : nat) (c : ascii) :
  c = "[" \/ c = "]" ->
  toggles_at t escaped q = true -> Ascii.eqb (char_at t q) c = false.
Proof.
  intros Hc H. unfold toggles_at in H.
  assert (Hq : char_at t q = BS \/ char_at t q = DQ).
  { destruct escaped; rewrite !andb_true_iff in H.
    - left. apply Ascii.eqb_eq. tauto.
    - right. apply Ascii.eqb_eq. tauto. }
  destruct Hq as [-> | ->], Hc as [-> | ->]; reflexivity.
Qed.

(** The escaped branch: the pair is consumed as a unit, the flag flips,
    the counter is untouched. *)
Lemma scan_step_pair (t : text) (s : scan_state) :
  toggles_at t true (pos s) = true ->
  scan_step t true s
  = Continue (mkScan (pos s + 2) (bracket_count s) (negb (in_string s))).
Proof.
  intros H. unfold scan_step. simpl andb at 1.
  rewrite slice_pair. unfold toggles_at in H. rewrite H. reflexivity.
Qed.

(** Every other iteration: the flag follows the quote rule of the mode,
    and a bracket outside a string moves the counter. *)
Lemma scan_step_single (t : text) (escaped : bool) (s : scan_state) :
  (escaped = true -> toggles_at t true (pos s) = false) ->
  let i := pos s in
  let ins := xorb (in_string s) (toggles_at t escaped i) in
  scan_step t escaped s
  = if negb ins && Ascii.eqb (char_at t i) "["
    then Continue (mkScan (i + 1) (bracket_count s + 1) ins)
    else if negb ins && Ascii.eqb (char_at t i) "]"
         then if (bracket_count s - 1 =? 0)%Z
              then Closed i
              else Continue (mkScan (i + 1) (bracket_count s - 1) ins)
         else Continue (mkScan (i + 1) (bracket_count s) ins).
Proof.
  intros Hesc i ins. unfold scan_step. fold i.
  destruct escaped.
  - pose proof (Hesc eq_refl) as Hno. simpl andb at 1.
    rewrite slice_pair. unfold toggles_at in Hno. fold i in Hno. rewrite Hno.
    subst ins. unfold toggles_at. fold i. rewrite Hno. simpl.
    rewrite xorb_false_r.
    destruct (in_string s); simpl; [reflexivity|].
    destruct (Ascii.eqb (char_at t i) "["); [reflexivity|].
    destruct (Ascii.eqb (char_at t i) "]"); reflexivity.
  - simpl. subst ins. unfold toggles_at.
    destruct (Ascii.eqb (char_at t i) DQ) eqn:Hq; simpl.
    + destruct ((0 <? i) && Ascii.eqb (char_at t (i - 1)) BS); simpl.
      * rewrite xorb_false_r.
        destruct (in_string s); simpl; [reflexivity|].
        destruct (Ascii.eqb (char_at t i) "["); [reflexivity|].
        destruct (Ascii.eqb (char_at t i) "]"); reflexivity.
      * rewrite xorb_true_r.
        destruct (in_string s); simpl; [|reflexivity].
        destruct (Ascii.eqb (char_at t i) "["); [reflexivity|].
        destruct (Ascii.eqb (char_at t i) "]"); reflexivity.
    + rewrite xorb_false_r.
      destruct (in_string s); simpl; [reflexivity|].
      destruct (Ascii.eqb (char_at t i) "["); [reflexivity|].
      destruct (Ascii.eqb (char_at t i) "]"); reflexivity.
Qed.

(** A bracket is counted under the flag as it stands after the quote rule
    has been applied at its own offset: the rule never fires on a
    bracket, so this is the flag before it as well. *)
Lemma bracket_counted (t : text) (escaped : bool) (p : nat) (c : ascii)
  (ins : bool) :
  c = "[" \/ c = "]" ->
  Ascii.eqb (char_at t p) c && negb ins
  = negb (xorb ins (toggles_at t escaped p)) && Ascii.eqb (char_at t p) c.
Proof.
  intros Hc.
  destruct (toggles_at t escaped p) eqn:Ht.
  - rewrite (toggle_not_bracket _ _ _ _ Hc Ht), andb_false_r. reflexivity.
  - rewrite xorb_false_r. apply andb_comm.
Qed.

Lemma open_is_not_close (c : ascii) :
  Ascii.eqb c "[" = true -> Ascii.eqb c "]" = false.
Proof. intros H. apply Ascii.eqb_eq in H. subst c. reflexivity. Qed.

(** One iteration keeps the counters equal to the declarative reading,
    moves forward, and stops only on a balanced, closed span. *)
Lemma scan_step_inv (t : text) (escaped : bool) (array_start : nat)
  (s : scan_state) :
  pos s < length t ->
  scan_inv t escaped array_start s ->
  match scan_step t escaped s with
  | Continue s' => scan_inv t escaped array_start s' /\ pos s < pos s'
  | Closed i =>
      i = pos s
      /\ count_outside "[" t escaped array_start (i + 1)
         = count_outside "]" t escaped array_start (i + 1)
      /\ inside_string t escaped array_start (i + 1) = false
  end.
Proof.
  intros Hlen (Hle & Hbc & Hin).
  destruct (escaped && toggles_at t escaped (pos s)) eqn:Hpair.
  - (* the two-character unit *)
    apply andb_true_iff in Hpair. destruct Hpair as [-> Htog].
    rewrite (scan_step_pair _ _ Htog).
    split; [|simpl; lia].
    assert (Hnext : toggles_at t true (S (pos s)) = false).
    { unfold toggles_at in Htog |- *. rewrite !andb_true_iff in Htog.
      destruct Htog as [[_ _] Hq]. apply Ascii.eqb_eq in Hq.
      replace (pos s + 1) with (S (pos s)) in Hq by lia. rewrite Hq.
      reflexivity. }
    assert (Hq : char_at t (S (pos s)) = DQ).
    { unfold toggles_at in Htog. rewrite !andb_true_iff in Htog.
      destruct Htog as [_ Hq]. apply Ascii.eqb_eq in Hq.
      replace (pos s + 1) with (S (pos s)) in Hq by lia. exact Hq. }
    unfold scan_inv. simpl pos. simpl bracket_count. simpl in_string.
    replace (pos s + 2) with (S (S (pos s))) by lia.
    rewrite !count_outside_S, !inside_string_S by lia.
    rewrite Htog, Hnext, Hq.
    rewrite (toggle_not_bracket t true (pos s) "[" (or_introl eq_refl) Htog).
    rewrite (toggle_not_bracket t true (pos s) "]" (or_intror eq_refl) Htog).
    simpl. rewrite !Nat.add_0_r, xorb_false_r, xorb_true_r.
    repeat split; [lia | exact Hbc | rewrite Hin; reflexivity].
  - (* a single character *)
    assert (Hesc : escaped = true -> toggles_at t true (pos s) = false).
    { intros ->. exact Hpair. }
    rewrite (scan_step_single t escaped s Hesc).
    pose proof (count_outside_S "[" t escaped array_start (pos s) Hle) as Ho.
    pose proof (count_outside_S "]" t escaped array_start (pos s) Hle) as Hc.
    pose proof (inside_string_S t escaped array_start (pos s) Hle) as Hi.
    rewrite (bracket_counted t escaped (pos s) "[" _ (or_introl eq_refl)) in Ho.
    rewrite (bracket_counted t escaped (pos s) "]" _ (or_intror eq_refl)) in Hc.
    rewrite <- Hin in Ho, Hc, Hi.
    replace (pos s + 1) with (S (pos s)) by lia.
    set (ins := xorb (in_string s) (toggles_at t escaped (pos s))) in *.
    destruct (negb ins && Ascii.eqb (char_at t (pos s)) "[") eqn:Hopen.
    + apply andb_true_iff in Hopen. destruct Hopen as [Hn Hopen].
      rewrite (open_is_not_close _ Hopen), andb_false_r in Hc.
      unfold scan_inv. simpl. rewrite Ho, Hc, Hi, Hbc.
      repeat split; lia.
    + destruct (negb ins && Ascii.eqb (char_at t (pos s)) "]") eqn:Hclose.
      * apply andb_true_iff in Hclose. destruct Hclose as [Hn Hclose].
        destruct (bracket_count s - 1 =? 0)%Z eqn:Hz.
        -- apply Z.eqb_eq in Hz.
           replace (pos s + 1) with (S (pos s)) by lia.
           rewrite Ho, Hc, Hi. apply negb_true_iff in Hn.
           repeat split; [lia | exact Hn].
        -- unfold scan_inv. simpl. rewrite Ho, Hc, Hi, Hbc.
           repeat split; lia.
      * unfold scan_inv. simpl. rewrite Ho, Hc, Hi, Hbc.
        repeat split; lia.
Qed.

Lemma scan_step_advances (t : text) (escaped : bool) (s s' : scan_state) :
  scan_step t escaped s = Continue s' -> pos s < pos s'.
Proof.
  unfold scan_step.
  repeat match goal with
         | |- context [if ?b then _ else _] => destruct b
         end;
    intros H; inversion H; simpl; lia.
Qed.

Lemma scan_step_closed (t : text) (escaped : bool) (s : scan_state) (i : nat) :
  scan_step t escaped s = Closed i -> i = pos s.
Proof.
  unfold scan_step.
  repeat match goal with
         | |- context [if ?b then _ else _] => destruct b
         end;
    intros H; inversion H; reflexivity.
Qed.

(** ** The scanning loop *)

(** [len - i] rounds are enough from offset [i]. *)
Lemma scan_loop_enough_fuel (t : text) (escaped : bool) :
  forall fuel s, length t - pos s <= fuel ->
                 exists r, scan_loop fuel t escaped s = Done r.
Proof.
  induction fuel as [|fuel IH]; intros s Hfuel; simpl.
  - destruct (pos s <? length t) eqn:Hlt; [|eauto].
    apply Nat.ltb_lt in Hlt. lia.
  - destruct (pos s <? length t) eqn:Hlt; [|eauto].
    apply Nat.ltb_lt in Hlt.
    destruct (scan_step t escaped s) as [s'|i] eqn:Hstep; [|eauto].
    apply scan_step_advances in Hstep. apply IH. lia.
Qed.

(** A result does not depend on the rounds left over. *)
Lemma scan_loop_more_fuel (t : text) (escaped : bool) :
  forall fuel fuel' s r,
    fuel <= fuel' ->
    scan_loop fuel t escaped s = Done r -> scan_loop fuel' t escaped s = Done r.
Proof.
  induction fuel as [|fuel IH]; intros fuel' s r Hle; simpl.
  - destruct (pos s <? length t) eqn:Hlt; [discriminate|].
    intros H. destruct fuel'; simpl; rewrite Hlt; exact H.
  - destruct fuel' as [|fuel']; [lia|]. simpl.
    destruct (pos s <? length t); [|auto].
    destruct (scan_step t escaped s); [|auto].
    apply IH. lia.
Qed.

Lemma scan_array_done (t : text) (escaped : bool) (array_start fuel : nat) :
  length t <= fuel ->
  scan_loop fuel t escaped (mkScan array_start 0 false)
  = Done (scan_array t escaped array_start).
Proof.
  intros Hle. unfold scan_array.
  destruct (scan_loop_enough_fuel t escaped (length t) (mkScan array_start 0 false))
    as [r Hr]; [simpl; lia|].
  rewrite Hr. apply (scan_loop_more_fuel _ _ _ _ _ _ Hle Hr).
Qed.

(** From a state that agrees with the declarative reading, a successful
    scan ends on a balanced span with no string left open. *)
Lemma scan_loop_balanced (t : text) (escaped : bool) (array_start : nat) :
  forall fuel s e,
    scan_inv t escaped array_start s ->
    scan_loop fuel t escaped s = Done (Some e) ->
    count_outside "[" t escaped array_start e
    = count_outside "]" t escaped array_start e
    /\ inside_string t escaped array_start e = false
    /\ pos s < e <= length t.
Proof.
  induction fuel as [|fuel IH]; intros s e Hinv; simpl.
  - destruct (pos s <? length t); discriminate.
  - destruct (pos s <? length t) eqn:Hlt; [|discriminate].
    apply Nat.ltb_lt in Hlt.
    pose proof (scan_step_inv t escaped array_start s Hlt Hinv) as Hstep.
    destruct (scan_step t escaped s) as [s'|i].
    + destruct Hstep as [Hinv' Hadv]. intros H.
      destruct (IH s' e Hinv' H) as (Hb & Hf & Hr).
      repeat split; try assumption; lia.
    + destruct Hstep as (-> & Hb & Hf). intros H.
      injection H as <-. repeat split; try assumption; lia.
Qed.

Lemma scan_array_bounds (t : text) (escaped : bool) (array_start array_end : nat) :
  scan_array t escaped array_start = Some array_end ->
  array_start < array_end <= length t.
Proof.
  intros H.
  pose proof (scan_array_done t escaped array_start (length t) (le_n _)) as Hd.
  rewrite H in Hd.
  apply (scan_loop_balanced t escaped array_start _ _ _
           (scan_inv_start t escaped array_start)) in Hd.
  simpl in Hd. tauto.
Qed.

(** C4 (balance invariant).  Whenever the boundary scanner returns an end
    offset for a text, a mode and a start offset, the brackets that stand
    outside string literals in [text[array_start:array_end]], string
    literals being delimited by the quote rule of the mode, are as many
    opening as closing ones, and no string literal is open at
    [array_end]. *)
Theorem scan_array_balanced (html_content : text) (escaped : bool)
  (array_start array_end : nat) :
  scan_array html_content escaped array_start = Some array_end ->
  count_outside "[" html_content escaped array_start array_end
  = count_outside "]" html_content escaped array_start array_end
  /\ inside_string html_content escaped array_start array_end = false.
Proof.
  intros H.
  pose proof (scan_array_done html_content escaped array_start
                (length html_content) (le_n _)) as Hd.
  rewrite H in Hd.
  apply (scan_loop_balanced html_content escaped array_start _ _ _
           (scan_inv_start html_content escaped array_start)) in Hd.
  tauto.
Qed.

Lemma scan_array_balanced_witness :
  scan_array scanner_sample true 0 = Some 19
  /\ count_outside "[" scanner_sample true 0 19 = 3
  /\ count_outside "]" scanner_sample true 0 19 = 3
  /\ (count_outside "[" scanner_sample true 0 19
      = count_outside "]" scanner_sample true 0 19
      /\ inside_string scanner_sample true 0 19 = false).
Proof.
  split; [reflexivity|]. split; [reflexivity|]. split; [reflexivity|].
  apply (scan_array_balanced scanner_sample true 0 19). reflexivity.
Defined.

Lemma slice_pair_eq (t : text) (i : nat) :
  slice t i (i + 2) = [BS; DQ] <-> toggles_at t true i = true.
Proof.
  unfold toggles_at. rewrite <- slice_pair, andb_true_iff, text_eqb_eq.
  split; [|tauto].
  intros H. split; [|exact H].
  apply Nat.ltb_lt.
  assert (Hl : length (slice t i (i + 2)) = 2) by (rewrite H; reflexivity).
  unfold slice in Hl. rewrite length_firstn, length_skipn in Hl. lia.
Qed.

(** C9 (escaped mode).  In escaped mode the in-string flag is flipped by
    the backslash-quote pair, which is consumed as a unit, and by nothing
    else: a quote standing alone leaves the flag and the counter as they
    are and moves one character on, so a bracket that follows it is
    counted, or not, under the flag that was current before the quote. *)
Theorem escaped_mode_quote_rule (html_content : text) (s : scan_state) :
  (slice html_content (pos s) (pos s + 2) = [BS; DQ] ->
   scan_step html_content true s
   = Continue (mkScan (pos s + 2) (bracket_count s) (negb (in_string s))))
  /\ (char_at html_content (pos s) = DQ ->
      scan_step html_content true s
      = Continue (mkScan (pos s + 1) (bracket_count s) (in_string s)))
  /\ (forall s', scan_step html_content true s = Continue s' ->
                 in_string s' = negb (in_string s) ->
                 slice html_content (pos s) (pos s + 2) = [BS; DQ]
                 /\ pos s' = pos s + 2)
  /\ (char_at html_content (pos s) = DQ ->
      char_at html_content (pos s + 1) = "[" ->
      exists s1,
        scan_step html_content true s = Continue s1
        /\ scan_step html_content true s1
           = Continue (mkScan (pos s + 2)
                         (if in_string s then bracket_count s
                          else (bracket_count s + 1)%Z)
                         (in_string s))).
Proof.
  assert (Hbare : char_at html_content (pos s) = DQ ->
                  scan_step html_content true s
                  = Continue (mkScan (pos s + 1) (bracket_count s) (in_string s))).
  { intros Hq.
    assert (Hno : toggles_at html_content true (pos s) = false)
      by (unfold toggles_at; rewrite Hq; reflexivity).
    rewrite (scan_step_single html_content true s (fun _ => Hno)).
    rewrite Hno, Hq, xorb_false_r. simpl. rewrite !andb_false_r. reflexivity. }
  split; [|split; [exact Hbare|split]].
  - intros H. apply slice_pair_eq in H. apply scan_step_pair. exact H.
  - intros s' Hstep Hflip.
    destruct (toggles_at html_content true (pos s)) eqn:Htog.
    + rewrite (scan_step_pair _ _ Htog) in Hstep. injection Hstep as <-.
      split; [apply slice_pair_eq; exact Htog | reflexivity].
    + rewrite (scan_step_single html_content true s (fun _ => Htog)) in Hstep.
      rewrite Htog, xorb_false_r in Hstep.
      exfalso.
      repeat match type of Hstep with
             | (if ?b then _ else _) = _ => destruct b
             end;
        try discriminate; injection Hstep as <-; simpl in Hflip;
        destruct (in_string s); discriminate.
  - intros Hq Hb. eexists. split; [apply Hbare; exact Hq|].
    assert (Hno : toggles_at html_content true (pos s + 1) = false)
      by (unfold toggles_at; rewrite Hb; reflexivity).
    rewrite (scan_step_single html_content true
               (mkScan (pos s + 1) (bracket_count s) (in_string s))
               (fun _ => Hno)).
    cbn [pos bracket_count in_string].
    rewrite Hno, Hb, xorb_false_r. simpl.
    replace (pos s + 1 + 1) with (pos s + 2) by lia.
    destruct (in_string s); reflexivity.
Qed.

Lemma escaped_mode_quote_rule_witness :
  char_at scanner_sample 12 = DQ
  /\ scan_step scanner_sample true (mkScan 12 2 false)
     = Continue (mkScan 13 2 false).
Proof.
  split; [reflexivity|].
  apply (proj1 (proj2 (escaped_mode_quote_rule scanner_sample (mkScan 12 2 false)))).
  reflexivity.
Defined.

(** ** Locator *)

Lemma startswith_length (sub s : text) :
  startswith sub s = true -> length sub <= length s.
Proof.
  revert s; induction sub as [|x sub IH]; intros [|y s]; simpl;
    try discriminate; try lia.
  rewrite andb_true_iff. intros [_ H]. apply IH in H. lia.
Qed.

Lemma find_in_bounds (sub : text) :
  forall s p q, find_in sub s p = Some q ->
                p <= q /\ q + length sub <= p + length s.
Proof.
  induction s as [|c s IH]; intros p q; simpl.
  - destruct (startswith sub []) eqn:Hs; [|discriminate].
    intros H; injection H as <-. apply startswith_length in Hs. simpl in Hs. lia.
  - destruct (startswith sub (c :: s)) eqn:Hs.
    + intros H; injection H as <-. apply startswith_length in Hs. simpl in Hs. lia.
    + intros H. apply IH in H. lia.
Qed.

Lemma find_bounds (s sub : text) (start q : nat) :
  find s sub start = Some q -> start <= q /\ q + length sub <= length s.
Proof.
  unfold find. destruct (length s <? start) eqn:Hlt; [discriminate|].
  apply Nat.ltb_ge in Hlt. intros H. apply find_in_bounds in H.
  rewrite length_skipn in H. lia.
Qed.

(** The offset the locator returns is that of a character of the text,
    strictly after the offset the search started from. *)
Lemma find_anchor_bounds (t : text) (start_pos array_start : nat) (escaped : bool) :
  find_anchor t start_pos = Some (array_start, escaped) ->
  start_pos < array_start < length t.
Proof.
  unfold find_anchor.
  destruct (find t escaped_anchor start_pos) as [p|] eqn:He.
  - intros H; injection H as <- <-. apply find_bounds in He.
    change (length escaped_anchor) with 11 in He.
    change escaped_key_len with 10. lia.
  - destruct (find t unescaped_anchor start_pos) as [p|] eqn:Hu; [|discriminate].
    intros H; injection H as <- <-. apply find_bounds in Hu.
    change (length unescaped_anchor) with 9 in Hu.
    change unescaped_key_len with 8. lia.
Qed.

(** ** [extract_json_polls] and the aggregating loop *)

Lemma extract_json_polls_bounds (t : text) (start_pos end_pos : nat)
  (polls : list json) :
  extract_json_polls t start_pos = Some (polls, end_pos) ->
  start_pos < end_pos <= length t.
Proof.
  unfold extract_json_polls.
  destruct (find_anchor t start_pos) as [[array_start escaped]|] eqn:Ha;
    [|discriminate].
  destruct (scan_array t escaped array_start) as [array_end|] eqn:Hs;
    [|discriminate].
  destruct (decode escaped (slice t array_start array_end)); [|discriminate].
  intros H; injection H as _ <-.
  apply find_anchor_bounds in Ha. apply scan_array_bounds in Hs. lia.
Qed.

(** The budget of [extract_all_polls] is never exhausted. *)
Lemma extract_all_polls_loop_enough_fuel (t : text) :
  forall fuel start_pos all_polls,
    length t - start_pos < fuel ->
    exists r, extract_all_polls_loop fuel t start_pos all_polls = Done r.
Proof.
  induction fuel as [|fuel IH]; intros start_pos all_polls Hfuel; [lia|].
  simpl.
  destruct (extract_json_polls t start_pos) as [[polls end_pos]|] eqn:He;
    [|eauto].
  apply extract_json_polls_bounds in He. apply IH. lia.
Qed.

Lemma extract_all_polls_loop_more_fuel (t : text) :
  forall fuel fuel' start_pos all_polls r,
    fuel <= fuel' ->
    extract_all_polls_loop fuel t start_pos all_polls = Done r ->
    extract_all_polls_loop fuel' t start_pos all_polls = Done r.
Proof.
  induction fuel as [|fuel IH]; intros fuel' start_pos all_polls r Hle;
    [discriminate|].
  destruct fuel' as [|fuel']; [lia|]. simpl.
  destruct (extract_json_polls t start_pos) as [[polls end_pos]|]; [|auto].
  apply IH. lia.
Qed.

(** Every run of calls ends: the discovery sequence exists. *)
Lemma discovered_exists (t : text) :
  forall n start_pos, length t - start_pos < n ->
                      exists found, discovered t start_pos found.
Proof.
  induction n as [|n IH]; intros start_pos Hn; [lia|].
  destruct (extract_json_polls t start_pos) as [[polls end_pos]|] eqn:He.
  - pose proof (extract_json_polls_bounds _ _ _ _ He) as Hb.
    destruct (IH end_pos ltac:(lia)) as [rest Hrest].
    exists ((polls, end_pos) :: rest). econstructor; eassumption.
  - exists []. constructor. exact He.
Qed.

Lemma discovered_increasing (t : text) (start_pos : nat)
  (found : list (list json * nat)) :
  discovered t start_pos found ->
  increasing_from start_pos (map snd found)
  /\ length found <= length t - start_pos.
Proof.
  induction 1 as [start_pos He | start_pos end_pos polls rest He Hrest [IHi IHl]];
    simpl.
  - split; [exact I | lia].
  - apply extract_json_polls_bounds in He. repeat split; [lia | exact IHi | lia].
Qed.

(** The loop returns what was accumulated followed by the discovered
    record lists, in order. *)
Lemma extract_all_polls_loop_discovered (t : text) (start_pos : nat)
  (found : list (list json * nat)) :
  discovered t start_pos found ->
  forall fuel all_polls,
    length found < fuel ->
    extract_all_polls_loop fuel t start_pos all_polls
    = Done (all_polls ++ concat (map fst found)).
Proof.
  induction 1 as [start_pos He | start_pos end_pos polls rest He Hrest IH];
    intros fuel all_polls Hfuel; (destruct fuel as [|fuel]; [simpl in Hfuel; lia|]);
    simpl; rewrite He.
  - rewrite app_nil_r. reflexivity.
  - rewrite IH by (simpl in Hfuel; lia). rewrite app_assoc. reflexivity.
Qed.

Lemma extract_all_polls_discovered (t : text) (found : list (list json * nat)) :
  discovered t 0 found ->
  extract_all_polls t = nonempty_or_none (concat (map fst found)).
Proof.
  intros H. unfold extract_all_polls.
  rewrite (extract_all_polls_loop_discovered t 0 found H).
  - reflexivity.
  - apply discovered_increasing in H. lia.
Qed.

(** C6 (termination).  Every successful call of [extract_json_polls]
    returns an end offset strictly above the offset it was called with and
    at most the length of the document; hence the loop of
    [extract_all_polls] returns within [len + 1] rounds for every
    document, with the result [extract_all_polls] is defined from, and a
    larger budget changes nothing. *)
Theorem extract_all_polls_terminates (html_content : text) :
  (forall start_pos polls end_pos,
      extract_json_polls html_content start_pos = Some (polls, end_pos) ->
      start_pos < end_pos <= length html_content)
  /\ (exists all_polls,
         extract_all_polls_loop (S (length html_content)) html_content 0 []
         = Done all_polls
         /\ extract_all_polls html_content = nonempty_or_none all_polls
         /\ forall fuel,
             S (length html_content) <= fuel ->
             extract_all_polls_loop fuel html_content 0 [] = Done all_polls).
Proof.
  split.
  - intros start_pos polls end_pos H.
    apply (extract_json_polls_bounds _ _ _ _ H).
  - destruct (extract_all_polls_loop_enough_fuel html_content
                (S (length html_content)) 0 []) as [r Hr]; [lia|].
    exists r. split; [exact Hr|]. split.
    + unfold extract_all_polls. rewrite Hr. reflexivity.
    + intros fuel Hfuel.
      apply (extract_all_polls_loop_more_fuel _ _ _ _ _ _ Hfuel Hr).
Qed.

Lemma extract_all_polls_terminates_witness :
  extract_json_polls two_arrays_doc 0
  = Some ([JObj [(str "a", JInt 1)]; JObj [(str "b", JInt 2)]], 33)
  /\ 0 < 33 <= length two_arrays_doc.
Proof.
  split; [reflexivity|].
  apply (proj1 (extract_all_polls_terminates two_arrays_doc) 0
           [JObj [(str "a", JInt 1)]; JObj [(str "b", JInt 2)]] 33).
  reflexivity.
Defined.

(** C2 as stated fails: on a page without any anchor the aggregator
    returns [None], not an empty list. *)
Lemma extract_all_polls_no_anchor_counterexample :
  find no_anchor_doc escaped_anchor 0 = None
  /\ find no_anchor_doc unescaped_anchor 0 = None
  /\ extract_all_polls no_anchor_doc = None
  /\ extract_all_polls no_anchor_doc <> Some [].
Proof. repeat split; try reflexivity. discriminate. Qed.

(** C2, amended.  When neither form of the anchor occurs anywhere in the
    text, [extract_all_polls] returns [None], the value its last line
    substitutes for an empty accumulator; no list is returned. *)
Theorem extract_all_polls_no_anchor (html_content : text) :
  find html_content escaped_anchor 0 = None ->
  find html_content unescaped_anchor 0 = None ->
  extract_all_polls html_content = None.
Proof.
  intros He Hu.
  assert (Hx : extract_json_polls html_content 0 = None).
  { unfold extract_json_polls, find_anchor. rewrite He, Hu. reflexivity. }
  rewrite (extract_all_polls_discovered html_content []
             (discovered_stop html_content 0 Hx)).
  reflexivity.
Qed.

Lemma extract_all_polls_no_anchor_witness :
  extract_all_polls no_anchor_doc = None.
Proof.
  apply (extract_all_polls_no_anchor no_anchor_doc); reflexivity.
Defined.

(** C5 as stated fails: the escaped form is searched first over the whole
    remaining text, so an unescaped array standing before an escaped one
    is never extracted, although both are extractable on their own; and
    two arrays without records give [None], not the empty concatenation. *)
Lemma extract_all_polls_mixed_counterexample :
  (find mixed_doc unescaped_anchor 0 = Some 0
   /\ scan_array mixed_doc false 8 = Some 17
   /\ decode false (slice mixed_doc 8 17) = Some [JObj [(str "a", JInt 1)]])
  /\ (find mixed_doc escaped_anchor 0 = Some 22
      /\ scan_array mixed_doc true 32 = Some 43
      /\ decode true (slice mixed_doc 32 43) = Some [JObj [(str "b", JInt 2)]])
  /\ extract_all_polls mixed_doc = Some [JObj [(str "b", JInt 2)]]
  /\ extract_all_polls mixed_doc
     <> Some [JObj [(str "a", JInt 1)]; JObj [(str "b", JInt 2)]]
  /\ (extract_json_polls empty_arrays_doc 0 = Some ([], 10)
      /\ extract_json_polls empty_arrays_doc 10 = Some ([], 21)
      /\ extract_all_polls empty_arrays_doc = None).
Proof.
  assert (H : extract_all_polls mixed_doc = Some [JObj [(str "b", JInt 2)]])
    by (vm_compute; reflexivity).
  split; [repeat split; vm_compute; reflexivity|].
  split; [repeat split; vm_compute; reflexivity|].
  split; [exact H|].
  split; [rewrite H; discriminate|].
  repeat split; vm_compute; reflexivity.
Qed.


(** ** The normaliser *)

Lemma find_snoc {A : Type} (p : A -> bool) (l : list A) (x : A) :
  List.find p (l ++ [x])
  = match List.find p l with
    | Some y => Some y
    | None => if p x then Some x else None
    end.
Proof.
  induction l as [|y l IH]; simpl; [reflexivity|].
  destruct (p y); [reflexivity | exact IH].
Qed.

(** The last entry of a category, read from the head of the list. *)
Lemma last_match_cons (category : json -> bool) (candidate : json)
  (items : list json) (default : json) :
  last_match category (candidate :: items) default
  = last_match category items
      (if category candidate then candidate_value candidate else default).
Proof.
  unfold last_match. simpl. rewrite find_snoc.
  destruct (List.find category (rev items)); [reflexivity|].
  destruct (category candidate); reflexivity.
Qed.

(** The loop body succeeds exactly on the entries [candidate_ok] accepts,
    and then overwrites the column of the entry's category. *)
Lemma candidate_step_ok (approve disapprove candidate : json) :
  candidate_ok candidate = true ->
  candidate_step (approve, disapprove) candidate
  = Ok (if names_approve candidate then candidate_value candidate else approve,
        if names_disapprove candidate then candidate_value candidate
        else disapprove).
Proof.
  destruct candidate as [| | | | |items|d]; try discriminate.
  unfold candidate_ok, candidate_step, names_approve, names_disapprove,
    candidate_name, candidate_value, get, dict_get_default.
  destruct (dict_get (str "name") d) as [[| | | |s| |]|]; try discriminate;
    intros _; [|reflexivity].
  unfold bind, get_lower.
  destruct (contains (str "approve") (lower s));
    destruct (contains (str "disapprove") (lower s)); reflexivity.
Qed.

Lemma candidate_step_raises (acc : json * json) (candidate : json) :
  candidate_ok candidate = false ->
  candidate_step acc candidate = Raise AttributeError.
Proof.
  destruct acc as [approve disapprove].
  destruct candidate as [| | | | |items|d]; try reflexivity.
  unfold candidate_ok, candidate_step, get, dict_get_default.
  destruct (dict_get (str "name") d) as [[| | | |s| |]|]; try discriminate;
    reflexivity.
Qed.

Lemma candidates_loop_ok (items : list json) :
  forall approve disapprove,
    forallb candidate_ok items = true ->
    candidates_loop items (approve, disapprove)
    = Ok (last_match names_approve items approve,
          last_match names_disapprove items disapprove).
Proof.
  induction items as [|candidate items IH]; intros approve disapprove Hok;
    [reflexivity|].
  simpl in Hok. apply andb_true_iff in Hok. destruct Hok as [Hc Hrest].
  cbn [candidates_loop]. rewrite (candidate_step_ok _ _ _ Hc). cbn [bind].
  rewrite (IH _ _ Hrest), !last_match_cons. reflexivity.
Qed.

Lemma candidates_loop_raises (items : list json) :
  forall acc, forallb candidate_ok items = false ->
              candidates_loop items acc = Raise AttributeError.
Proof.
  induction items as [|candidate items IH]; intros [approve disapprove] Hno;
    [discriminate|].
  simpl in Hno. cbn [candidates_loop].
  destruct (candidate_ok candidate) eqn:Hc.
  - rewrite (candidate_step_ok _ _ _ Hc). cbn [bind]. apply IH. exact Hno.
  - rewrite (candidate_step_raises _ _ Hc). reflexivity.
Qed.

(** [format_poll] returns a row exactly on the records [record_ok]
    accepts, and the row is [row_of]. *)
Lemma format_poll_ok (d : list (text * json)) (items : list json) :
  candidates_of d = Ok items ->
  forallb candidate_ok items = true ->
  format_poll (JObj d) = Ok (row_of d items).
Proof.
  intros Hitems Hok. unfold format_poll, get. cbn [bind].
  unfold candidates_of in Hitems. rewrite Hitems. cbn [bind].
  rewrite (candidates_loop_ok _ _ _ Hok). cbn [bind]. cbv beta iota.
  unfold row_of, spread_of, dict_get_default.
  destruct (dict_get (str "spread") d) as [[| | | | | |sd]|]; reflexivity.
Qed.

Lemma format_poll_inv (poll : json) (row : list json) :
  format_poll poll = Ok row ->
  exists d items,
    poll = JObj d /\ candidates_of d = Ok items
    /\ forallb candidate_ok items = true /\ row = row_of d items.
Proof.
  destruct poll as [| | | | |l|d]; try discriminate.
  intros H. exists d.
  destruct (candidates_of d) as [items|e] eqn:Hitems.
  - exists items. destruct (forallb candidate_ok items) eqn:Hok.
    + rewrite (format_poll_ok _ _ Hitems Hok) in H. injection H as <-. auto.
    + exfalso. unfold format_poll, get in H. cbn [bind] in H.
      unfold candidates_of in Hitems. rewrite Hitems in H. cbn [bind] in H.
      rewrite (candidates_loop_raises _ _ Hok) in H. discriminate.
  - exfalso. unfold format_poll, get in H. cbn [bind] in H.
    unfold candidates_of in Hitems. rewrite Hitems in H. discriminate.
Qed.

Lemma record_ok_format_poll (poll : json) :
  record_ok poll = true ->
  exists d items,
    poll = JObj d /\ candidates_of d = Ok items
    /\ format_poll poll = Ok (row_of d items).
Proof.
  destruct poll as [| | | | |l|d]; try discriminate. simpl.
  destruct (candidates_of d) as [items|e] eqn:Hitems; [|discriminate].
  intros Hok. exists d, items. repeat split; auto.
  apply format_poll_ok; assumption.
Qed.

(** A value found by [last_match] is the default or a candidate's value. *)
Lemma last_match_in (category : json -> bool) (items : list json)
  (default : json) :
  In (last_match category items default) (default :: map candidate_value items).
Proof.
  unfold last_match.
  destruct (List.find category (rev items)) as [candidate|] eqn:Hf;
    [|left; reflexivity].
  right. apply find_some in Hf. destruct Hf as [Hin _].
  apply in_map. apply in_rev. exact Hin.
Qed.

Lemma last_match_nil (category : json -> bool) (default : json) :
  last_match category [] default = default.
Proof. reflexivity. Qed.

Lemma format_rows_inv (polls : list json) :
  forall rows, format_rows polls = Ok rows ->
               Forall2 (fun poll row => format_poll poll = Ok row) polls rows.
Proof.
  induction polls as [|poll polls IH]; simpl; intros rows H.
  - injection H as <-. constructor.
  - destruct (format_poll poll) as [row|e] eqn:Hrow; [|discriminate].
    simpl in H. destruct (format_rows polls) as [rest|e]; [|discriminate].
    injection H as <-. constructor; [exact Hrow | apply IH; reflexivity].
Qed.

Lemma format_rows_ok (polls : list json) :
  forallb record_ok polls = true ->
  exists rows, format_rows polls = Ok rows
               /\ Forall2 (fun poll row => format_poll poll = Ok row) polls rows.
Proof.
  induction polls as [|poll polls IH]; simpl; intros H.
  - exists []. split; [reflexivity | constructor].
  - apply andb_true_iff in H. destruct H as [Hp Hrest].
    destruct (record_ok_format_poll _ Hp) as (d & items & -> & Hitems & Hrow).
    destruct (IH Hrest) as (rows & Hrows & Hall).
    exists (row_of d items :: rows). rewrite Hrow. simpl. rewrite Hrows.
    split; [reflexivity | constructor; assumption].
Qed.

(** C1 as stated fails: with two entries of a category the column takes
    the value of the later one, not of the first. *)
Lemma format_polls_data_first_match_counterexample :
  format_polls_data [JObj twice_approve]
  = Ok (headers, [[EMPTY; EMPTY; EMPTY; JInt 44; JInt 55; EMPTY]])
  /\ first_match names_approve repeated_entries EMPTY = JInt 41
  /\ first_match names_disapprove repeated_entries EMPTY = JInt 52.
Proof. repeat split; reflexivity. Qed.

(** C1, amended.  For every record whose candidate list is a list of
    entries the loop accepts, the approve column is the value of the LAST
    entry in list order whose lower-cased name contains "approve" and not
    "disapprove", and the disapprove column the value of the LAST entry
    whose lower-cased name contains "disapprove" (the empty string when
    the category has no entry): every later match overwrites the earlier
    one. *)
Theorem format_polls_data_last_match (d : list (text * json))
  (items : list json) :
  dict_get (str "candidate") d = Some (JArr items) ->
  forallb candidate_ok items = true ->
  exists row,
    format_polls_data [JObj d] = Ok (headers, [row])
    /\ nth 3 row JNull = last_match names_approve items EMPTY
    /\ nth 4 row JNull = last_match names_disapprove items EMPTY.
Proof.
  intros Hc Hok.
  assert (Hitems : candidates_of d = Ok items).
  { unfold candidates_of, dict_get_default. rewrite Hc. reflexivity. }
  exists (row_of d items). unfold format_polls_data. cbn [format_rows].
  rewrite (format_poll_ok _ _ Hitems Hok). repeat split.
Qed.

Lemma format_polls_data_last_match_witness :
  exists row,
    format_polls_data [JObj twice_approve] = Ok (headers, [row])
    /\ nth 3 row JNull = last_match names_approve repeated_entries EMPTY
    /\ nth 4 row JNull = last_match names_disapprove repeated_entries EMPTY.
Proof.
  apply (format_polls_data_last_match twice_approve repeated_entries);
    reflexivity.
Defined.

(** C3 as stated fails: a sample size decoded as a JSON number reaches
    the row as that number, not as text. *)
Lemma format_polls_data_text_counterexample :
  format_polls_data [sample_only]
  = Ok (headers, [[EMPTY; EMPTY; JInt 500; EMPTY; EMPTY; EMPTY]])
  /\ forallb is_text [EMPTY; EMPTY; JInt 500; EMPTY; EMPTY; EMPTY] = false.
Proof. split; reflexivity. Qed.

(** C3, amended.  Every row [format_polls_data] returns has six fields,
    each of them the JSON value stored in the record, unchanged (a string
    stays a string and a number stays a number; nothing is converted to
    text): pollster, date and sample are the values of their keys, approve
    and disapprove are values of candidate entries, spread is the value
    inside the spread mapping; the empty string stands for a field that is
    absent. *)
Theorem format_polls_data_keeps_values (polls : list json)
  (hs : list text) (rows : list (list json)) :
  format_polls_data polls = Ok (hs, rows) ->
  hs = headers /\ Forall2 keeps_values polls rows.
Proof.
  unfold format_polls_data.
  destruct (format_rows polls) as [rows'|e] eqn:Hrows; [|discriminate].
  simpl. intros H. injection H as <- <-. split; [reflexivity|].
  apply format_rows_inv in Hrows.
  induction Hrows as [|poll row polls rows' Hrow _ IH]; constructor;
    [|exact IH].
  destruct (format_poll_inv _ _ Hrow) as (d & items & -> & Hitems & _ & ->).
  exists d, items. unfold row_of. cbn [nth length].
  repeat split; try reflexivity; try assumption; apply last_match_in.
Qed.

Lemma format_polls_data_keeps_values_witness :
  headers = headers
  /\ Forall2 keeps_values [sample_only]
       [[EMPTY; EMPTY; JInt 500; EMPTY; EMPTY; EMPTY]].
Proof.
  apply (format_polls_data_keeps_values [sample_only] headers
           [[EMPTY; EMPTY; JInt 500; EMPTY; EMPTY; EMPTY]]).
  reflexivity.
Defined.

(** C7 as stated fails: a record that lacks most fields but whose
    candidate field is a number makes the candidate loop raise. *)
Lemma format_polls_data_raises_counterexample :
  (dict_get (str "pollster") [(str "candidate", JInt 5)] = None
   /\ dict_get (str "date") [(str "candidate", JInt 5)] = None
   /\ dict_get (str "spread") [(str "candidate", JInt 5)] = None)
  /\ format_polls_data [candidate_number] = Raise TypeError.
Proof. repeat split; reflexivity. Qed.

(** C7, amended.  For every list of records whose candidate field, when
    present, can be iterated and yields only dicts with a string (or
    absent) name, [format_polls_data] does not raise: it returns the
    headers and one six-field row per record, in which every column whose
    source fields are absent from the record is the empty string.  No
    absent field ever makes it raise. *)
Theorem format_polls_data_total (polls : list json) :
  forallb record_ok polls = true ->
  exists rows,
    format_polls_data polls = Ok (headers, rows)
    /\ Forall2 absent_fields_empty polls rows.
Proof.
  intros Hok. destruct (format_rows_ok _ Hok) as (rows & Hrows & Hall).
  exists rows. unfold format_polls_data. rewrite Hrows. split; [reflexivity|].
  clear Hrows Hok.
  induction Hall as [|poll row polls rows Hrow _ IH]; constructor; [|exact IH].
  destruct (format_poll_inv _ _ Hrow) as (d & items & -> & Hitems & _ & ->).
  split; [reflexivity|].
  intros d' Hd. injection Hd as <-.
  unfold row_of, spread_of, dict_get_default. cbn [nth].
  repeat split.
  - intros -> ->. reflexivity.
  - intros ->. reflexivity.
  - intros ->. reflexivity.
  - unfold candidates_of, dict_get_default in Hitems. rewrite H in Hitems.
    injection Hitems as <-. reflexivity.
  - unfold candidates_of, dict_get_default in Hitems. rewrite H in Hitems.
    injection Hitems as <-. reflexivity.
  - intros ->. reflexivity.
Qed.

Lemma format_polls_data_total_witness :
  exists rows,
    format_polls_data [JObj [(str "date", JStr (str "2024-01-01"))]; sample_only]
    = Ok (headers, rows)
    /\ Forall2 absent_fields_empty
         [JObj [(str "date", JStr (str "2024-01-01"))]; sample_only] rows.
Proof.
  apply (format_polls_data_total
           [JObj [(str "date", JStr (str "2024-01-01"))]; sample_only]).
  reflexivity.
Defined.

(** ** A document split as prefix, blob, suffix *)

(** An occurrence of [sub] at the head of [p ++ rest] lies inside [p] or
    runs over the seam. *)
Lemma startswith_app (sub : text) :
  forall p rest,
    startswith sub (p ++ rest) = true ->
    startswith sub p = true
    \/ (length p < length sub /\ startswith (skipn (length p) sub) rest = true).
Proof.
  induction sub as [|x sub IH]; intros p rest H; [left; reflexivity|].
  destruct p as [|y p].
  - right. simpl. split; [lia | exact H].
  - simpl in H |- *. apply andb_true_iff in H. destruct H as [Hxy H].
    destruct (IH p rest H) as [Hp | [Hl Hs]].
    + left. rewrite Hxy, Hp. reflexivity.
    + right. split; [lia | exact Hs].
Qed.

(** When [sub] does not occur in [pre], cannot run over the seam, and
    heads [rest], its first occurrence in [pre ++ rest] is at the seam. *)
Lemma find_in_seam (sub rest : text) :
  (forall k, 1 <= k < length sub -> startswith (skipn k sub) rest = false) ->
  startswith sub rest = true ->
  forall pre p,
    find_in sub pre p = None ->
    find_in sub (pre ++ rest) p = Some (p + length pre).
Proof.
  intros Hseam Hhead. induction pre as [|c pre IH]; intros p Hnone.
  - simpl app. simpl length. rewrite Nat.add_0_r.
    destruct rest; simpl; rewrite Hhead; reflexivity.
  - simpl in Hnone.
    destruct (startswith sub (c :: pre)) eqn:Hs; [discriminate|].
    change ((c :: pre) ++ rest) with (c :: (pre ++ rest)).
    cbn [find_in].
    destruct (startswith sub (c :: pre ++ rest)) eqn:Hs'.
    + exfalso.
      destruct (startswith_app sub (c :: pre) rest Hs') as [Hp | [Hl Hk]].
      * rewrite Hp in Hs. discriminate.
      * rewrite Hseam in Hk; [discriminate | simpl; simpl in Hl; lia].
    + rewrite (IH (S p) Hnone). simpl. f_equal. lia.
Qed.

(** Where the search starts does not decide whether it succeeds. *)
Lemma find_in_none (sub : text) :
  forall s p q, find_in sub s p = None -> find_in sub s q = None.
Proof.
  induction s as [|c s IH]; intros p q; simpl.
  - destruct (startswith sub []); [discriminate | reflexivity].
  - destruct (startswith sub (c :: s)); [discriminate|]. apply IH.
Qed.

Lemma find_from_zero (s sub : text) :
  find s sub 0 = find_in sub s 0.
Proof. reflexivity. Qed.

Lemma find_after (pre rest sub : text) :
  find rest sub 0 = None ->
  find (pre ++ rest) sub (length pre) = None.
Proof.
  intros H. unfold find. rewrite length_app.
  replace (length pre + length rest <? length pre) with false
    by (symmetry; apply Nat.ltb_ge; lia).
  rewrite skipn_app, skipn_all, Nat.sub_diag. simpl.
  apply (find_in_none sub rest 0). exact H.
Qed.

Lemma char_at_app (pre t : text) (i : nat) :
  char_at (pre ++ t) (length pre + i) = char_at t i.
Proof. unfold char_at. apply app_nth2_plus. Qed.

Lemma skipn_app_plus (pre t : text) (i : nat) :
  skipn (length pre + i) (pre ++ t) = skipn i t.
Proof.
  rewrite skipn_app, skipn_all2 by lia. simpl. f_equal. lia.
Qed.

Lemma slice_app (pre t : text) (a b : nat) :
  slice (pre ++ t) (length pre + a) (length pre + b) = slice t a b.
Proof.
  unfold slice. rewrite skipn_app_plus. f_equal. lia.
Qed.

(** The scanner in escaped mode never looks behind its start: run on
    [pre ++ t] from [length pre + i], it does what it does on [t] from
    [i], every offset moved by [length pre]. *)
Lemma scan_step_app (pre t : text) (s : scan_state) :
  scan_step (pre ++ t) true (shift_state (length pre) s)
  = match scan_step t true s with
    | Continue s' => Continue (shift_state (length pre) s')
    | Closed i => Closed (length pre + i)
    end.
Proof.
  unfold scan_step, shift_state. cbn [pos bracket_count in_string].
  rewrite char_at_app, length_app.
  replace (length pre + pos s + 2) with (length pre + (pos s + 2)) by lia.
  rewrite slice_app.
  replace (length pre + pos s + 1 <? length pre + length t)
    with (pos s + 1 <? length t).
  2:{ destruct (pos s + 1 <? length t) eqn:H; symmetry.
      - apply Nat.ltb_lt in H. apply Nat.ltb_lt. lia.
      - apply Nat.ltb_ge in H. apply Nat.ltb_ge. lia. }
  cbn [andb negb].
  repeat match goal with
         | |- context [if ?b then _ else _] => destruct b
         end;
    cbn [pos bracket_count in_string]; try reflexivity;
    f_equal; f_equal; lia.
Qed.

Lemma scan_loop_app (pre t : text) :
  forall fuel s,
    scan_loop fuel (pre ++ t) true (shift_state (length pre) s)
    = match scan_loop fuel t true s with
      | Done (Some e) => Done (Some (length pre + e))
      | r => r
      end.
Proof.
  induction fuel as [|fuel IH]; intros s; cbn [scan_loop];
    (replace (pos (shift_state (length pre) s) <? length (pre ++ t))
       with (pos s <? length t);
     [|rewrite length_app; unfold shift_state; cbn [pos];
       destruct (pos s <? length t) eqn:H; symmetry;
       [apply Nat.ltb_lt in H; apply Nat.ltb_lt; lia
       |apply Nat.ltb_ge in H; apply Nat.ltb_ge; lia]]).
  - destruct (pos s <? length t); reflexivity.
  - destruct (pos s <? length t); [|reflexivity].
    rewrite scan_step_app.
    destruct (scan_step t true s) as [s'|i].
    + apply IH.
    + f_equal. f_equal. lia.
Qed.

Lemma scan_array_app (pre t : text) (array_start : nat) :
  scan_array (pre ++ t) true (length pre + array_start)
  = match scan_array t true array_start with
    | Some e => Some (length pre + e)
    | None => None
    end.
Proof.
  pose proof (scan_array_done (pre ++ t) true (length pre + array_start)
                (length (pre ++ t)) (le_n _)) as H.
  change (mkScan (length pre + array_start) 0 false)
    with (shift_state (length pre) (mkScan array_start 0 false)) in H.
  rewrite scan_loop_app in H.
  rewrite (scan_array_done t true array_start (length (pre ++ t))) in H
    by (rewrite length_app; lia).
  destruct (scan_array t true array_start); injection H as <-; reflexivity.
Qed.

(** ** The end-to-end example *)

Lemma acme_blob_located (pre post : text) :
  find pre escaped_anchor 0 = None ->
  find_anchor (pre ++ acme_blob ++ post) 0 = Some (length pre + 10, true).
Proof.
  intros Hpre. unfold find_anchor.
  rewrite find_from_zero in Hpre |- *.
  rewrite (find_in_seam escaped_anchor (acme_blob ++ post)); [reflexivity| | |exact Hpre].
  - intros k Hk. change (length escaped_anchor) with 11 in Hk.
    assert (Hcases : k = 1 \/ k = 2 \/ k = 3 \/ k = 4 \/ k = 5 \/ k = 6
                     \/ k = 7 \/ k = 8 \/ k = 9 \/ k = 10) by lia.
    repeat (destruct Hcases as [-> | Hcases]; [reflexivity|]).
    subst k. reflexivity.
  - reflexivity.
Qed.

Lemma acme_blob_extracted (pre post : text) :
  find pre escaped_anchor 0 = None ->
  extract_json_polls (pre ++ acme_blob ++ post) 0
  = Some ([acme_record], length pre + 195).
Proof.
  intros Hpre. unfold extract_json_polls.
  rewrite (acme_blob_located pre post Hpre).
  rewrite scan_array_app.
  replace (scan_array (acme_blob ++ post) true 10) with (Some 195)
    by (destruct post; vm_compute; reflexivity).
  rewrite slice_app.
  replace (slice (acme_blob ++ post) 10 195) with (skipn 10 acme_blob)
    by (vm_compute; reflexivity).
  replace (decode true (skipn 10 acme_blob)) with (Some [acme_record])
    by (vm_compute; reflexivity).
  reflexivity.
Qed.

Lemma acme_blob_last (pre post : text) :
  find post escaped_anchor 0 = None ->
  find post unescaped_anchor 0 = None ->
  extract_json_polls (pre ++ acme_blob ++ post) (length pre + 195) = None.
Proof.
  intros He Hu. unfold extract_json_polls, find_anchor.
  rewrite app_assoc.
  replace (length pre + 195) with (length (pre ++ acme_blob))
    by (rewrite length_app; reflexivity).
  rewrite (find_after _ _ _ He), (find_after _ _ _ Hu). reflexivity.
Qed.

(** C8 (end-to-end example).  For every document made of the escaped
    blob of the example between a text before it in which the escaped
    anchor does not occur and a text after it in which neither anchor
    occurs, [extract_all_polls] returns the single record of the blob and
    [format_polls_data] turns it into exactly one row with the values
    Acme, 2024-01-01, 500, 45, 50, -5 (the two names as strings, the four
    numbers as the JSON numbers they were decoded to). *)
Theorem acme_end_to_end (pre post : text) :
  find pre escaped_anchor 0 = None ->
  find post escaped_anchor 0 = None ->
  find post unescaped_anchor 0 = None ->
  extract_all_polls (pre ++ acme_blob ++ post) = Some [acme_record]
  /\ extract_then_format (pre ++ acme_blob ++ post)
     = Some (Ok (headers, [acme_row])).
Proof.
  intros Hpre He Hu.
  assert (Hall : extract_all_polls (pre ++ acme_blob ++ post)
                 = Some [acme_record]).
  { rewrite (extract_all_polls_discovered _
               [([acme_record], length pre + 195)]); [reflexivity|].
    apply discovered_next; [apply acme_blob_extracted; exact Hpre|].
    apply discovered_stop. apply acme_blob_last; assumption. }
  split; [exact Hall|].
  unfold extract_then_format. rewrite Hall. reflexivity.
Qed.

Lemma acme_end_to_end_witness :
  extract_all_polls (str "<script>self.push(" ++ acme_blob ++ str ")</script>")
  = Some [acme_record]
  /\ extract_then_format
       (str "<script>self.push(" ++ acme_blob ++ str ")</script>")
     = Some (Ok (headers, [acme_row])).
Proof.
  apply (acme_end_to_end (str "<script>self.push(") (str ")</script>"));
    reflexivity.
Defined.

(** ** The decoded value is a list

    The span handed to [json.loads] starts with the bracket of the anchor,
    so the value that comes back is a list: the branch of [only_dicts] for
    other values is never reached from [extract_json_polls]. *)

Lemma find_in_startswith (sub : text) :
  forall s p q, find_in sub s p = Some q ->
                p <= q /\ startswith sub (skipn (q - p) s) = true.
Proof.
  induction s as [|c s IH]; intros p q; simpl.
  - destruct (startswith sub []) eqn:Hs; [|discriminate].
    intros H; injection H as <-. rewrite Nat.sub_diag. auto.
  - destruct (startswith sub (c :: s)) eqn:Hs.
    + intros H; injection H as <-. rewrite Nat.sub_diag. auto.
    + intros H. apply IH in H. destruct H as [Hle H]. split; [lia|].
      replace (q - p) with (S (q - S p)) by lia. exact H.
Qed.

Lemma startswith_nth (sub : text) :
  forall s k, startswith sub s = true -> k < length sub ->
              nth k s zero = nth k sub zero.
Proof.
  induction sub as [|x sub IH]; intros [|y s] k H Hk; simpl in *;
    try lia; try discriminate.
  apply andb_true_iff in H. destruct H as [Hxy H].
  apply Ascii.eqb_eq in Hxy. subst y.
  destruct k as [|k]; [reflexivity|]. apply IH; [exact H | lia].
Qed.

Lemma nth_skipn_plus (s : text) :
  forall q k, nth k (skipn q s) zero = nth (q + k) s zero.
Proof.
  induction s as [|c s IH]; intros [|q] k; simpl; try reflexivity.
  - destruct k; reflexivity.
  - apply IH.
Qed.

Lemma find_char (s sub : text) (start q k : nat) :
  find s sub start = Some q -> k < length sub ->
  char_at s (q + k) = nth k sub zero.
Proof.
  unfold find. destruct (length s <? start); [discriminate|].
  intros H Hk. apply find_in_startswith in H. destruct H as [Hle H].
  rewrite skipn_skipn in H. replace (q - start + start) with q in H by lia.
  unfold char_at. rewrite <- nth_skipn_plus. apply startswith_nth; assumption.
Qed.

Lemma find_anchor_bracket (t : text) (start_pos array_start : nat)
  (escaped : bool) :
  find_anchor t start_pos = Some (array_start, escaped) ->
  char_at t array_start = "[".
Proof.
  unfold find_anchor.
  destruct (find t escaped_anchor start_pos) as [p|] eqn:He.
  - intros H; injection H as <- <-.
    apply (find_char _ _ _ _ 10 He). simpl. lia.
  - destruct (find t unescaped_anchor start_pos) as [p|] eqn:Hu; [|discriminate].
    intros H; injection H as <- <-.
    apply (find_char _ _ _ _ 8 Hu). simpl. lia.
Qed.

Lemma parse_items_list :
  forall fuel s acc v r,
    parse_items fuel s acc = Some (v, r) -> exists items, v = JArr items.
Proof.
  induction fuel as [|fuel IH]; intros s acc v r; [discriminate|].
  cbn [parse_items].
  destruct (parse_value fuel s) as [[w r1]|]; [|discriminate].
  destruct (skip_ws r1) as [|c r2]; [discriminate|].
  destruct (Ascii.eqb c ",") eqn:Hcomma.
  - apply Ascii.eqb_eq in Hcomma. subst c. apply IH.
  - destruct (Ascii.eqb c "]") eqn:Hclose.
    + apply Ascii.eqb_eq in Hclose. subst c.
      intros H; injection H as <- _. eauto.
    + intros H. exfalso. revert H.
      destruct c as [[] [] [] [] [] [] [] []]; try discriminate;
        simpl in Hcomma, Hclose; discriminate.
Qed.

Lemma json_loads_bracket (s : text) (v : json) :
  json_loads ("[" :: s) = Some v -> exists items, v = JArr items.
Proof.
  unfold json_loads.
  change (skip_ws ("[" :: s)) with ("[" :: s).
  replace (2 * length ("[" :: s) + 2) with (S (2 * length ("[" :: s) + 1)) by lia.
  cbn [parse_value].
  change (Ascii.eqb "[" DQ) with false. cbv iota.
  destruct (skip_ws s) as [|c r] eqn:Hws.
  - destruct (parse_items _ [] []) as [[w r1]|] eqn:Hp; [|discriminate].
    apply parse_items_list in Hp. destruct Hp as [items ->].
    destruct (skip_ws r1); [|discriminate]. intros H; injection H as <-. eauto.
  - destruct c as [[] [] [] [] [] [] [] []]; cbv iota;
      first
        [ destruct (skip_ws r); [|discriminate];
          intros H; injection H as <-; eauto
        | destruct (parse_items _ _ []) as [[w r1]|] eqn:Hp; [|discriminate];
          apply parse_items_list in Hp; destruct Hp as [items ->];
          destruct (skip_ws r1); [|discriminate];
          intros H; injection H as <-; eauto ].
Qed.

Lemma extract_json_polls_decodes_list (t : text)
  (start_pos array_start array_end : nat) (escaped : bool) (v : json) :
  find_anchor t start_pos = Some (array_start, escaped) ->
  scan_array t escaped array_start = Some array_end ->
  json_loads (unescape escaped (slice t array_start array_end)) = Some v ->
  exists items, v = JArr items.
Proof.
  intros Ha Hs.
  pose proof (find_anchor_bracket _ _ _ _ Ha) as Hb.
  apply find_anchor_bounds in Ha. apply scan_array_bounds in Hs.
  destruct (char_at_skipn t array_start ltac:(lia)) as [r Hr].
  unfold slice. rewrite Hr, Hb.
  replace (array_end - array_start) with (S (array_end - array_start - 1)) by lia.
  cbn [firstn].
  destruct escaped; cbn [unescape]; [|apply json_loads_bracket].
  unfold replace. cbn [replace_from startswith Ascii.eqb].
  change (Ascii.eqb BS "[") with false. cbn [andb].
  cbn [replace_from startswith]. change (Ascii.eqb BS "[") with false.
  cbn [andb]. apply json_loads_bracket.
Qed.

(** * Further properties of the code *)

(** ** The scanner stops at the first closing offset *)

Lemma closes_at_not_toggle (t : text) (escaped : bool) (a i : nat) :
  toggles_at t escaped i = true -> ~ closes_at t escaped a i.
Proof.
  intros Ht (Hc & _). apply (toggle_not_bracket t escaped i "]") in Ht; [|auto].
  rewrite Hc in Ht. discriminate.
Qed.

(** One iteration: the offsets it passes over do not close the array, and
    the offset it stops on does. *)
Lemma scan_step_close (t : text) (escaped : bool) (a : nat) (s : scan_state) :
  pos s < length t ->
  scan_inv t escaped a s ->
  match scan_step t escaped s with
  | Continue s' => forall i, pos s <= i < pos s' -> ~ closes_at t escaped a i
  | Closed i => closes_at t escaped a i
  end.
Proof.
  intros Hlen (Hle & Hbc & Hin).
  destruct (escaped && toggles_at t escaped (pos s)) eqn:Hpair.
  - apply andb_true_iff in Hpair. destruct Hpair as [-> Htog].
    rewrite (scan_step_pair _ _ Htog). cbn [pos].
    intros i Hi. assert (Hcase : i = pos s \/ i = pos s + 1) by lia.
    destruct Hcase as [-> | ->].
    + apply closes_at_not_toggle. exact Htog.
    + intros (Hc & _). unfold toggles_at in Htog.
      rewrite !andb_true_iff in Htog. destruct Htog as [_ Hq].
      apply Ascii.eqb_eq in Hq. rewrite Hq in Hc. discriminate.
  - assert (Hesc : escaped = true -> toggles_at t true (pos s) = false).
    { intros ->. exact Hpair. }
    rewrite (scan_step_single t escaped s Hesc).
    pose proof (count_outside_S "[" t escaped a (pos s) Hle) as Ho.
    pose proof (count_outside_S "]" t escaped a (pos s) Hle) as Hc.
    rewrite (bracket_counted t escaped (pos s) "[" _ (or_introl eq_refl)) in Ho.
    rewrite (bracket_counted t escaped (pos s) "]" _ (or_intror eq_refl)) in Hc.
    rewrite <- Hin in Ho, Hc.
    assert (Hflag : Ascii.eqb (char_at t (pos s)) "]" = true ->
                    xorb (in_string s) (toggles_at t escaped (pos s))
                    = in_string s).
    { intros Hb. destruct (toggles_at t escaped (pos s)) eqn:Ht.
      - rewrite (toggle_not_bracket _ _ _ "]" (or_intror eq_refl) Ht) in Hb.
        discriminate.
      - apply xorb_false_r. }
    set (ins := xorb (in_string s) (toggles_at t escaped (pos s))) in *.
    replace (pos s + 1) with (S (pos s)) by lia.
    destruct (negb ins && Ascii.eqb (char_at t (pos s)) "[") eqn:Hopen.
    + cbn [pos]. intros i Hi. assert (i = pos s) by lia. subst i.
      intros (Hch & _). apply andb_true_iff in Hopen. destruct Hopen as [_ Hopen].
      apply Ascii.eqb_eq in Hopen. rewrite Hopen in Hch. discriminate.
    + destruct (negb ins && Ascii.eqb (char_at t (pos s)) "]") eqn:Hclose.
      * apply andb_true_iff in Hclose. destruct Hclose as [Hn Hclose].
        apply negb_true_iff in Hn. rewrite (Hflag Hclose) in Hn.
        destruct (bracket_count s - 1 =? 0)%Z eqn:Hz.
        -- apply Z.eqb_eq in Hz. unfold closes_at.
           replace (pos s + 1) with (S (pos s)) by lia.
           rewrite Ho, Hc, <- Hin. apply Ascii.eqb_eq in Hclose.
           repeat split; [exact Hclose | exact Hn | lia].
        -- apply Z.eqb_neq in Hz. cbn [pos].
           intros i Hi. assert (i = pos s) by lia. subst i.
           intros (_ & _ & Heq).
           replace (pos s + 1) with (S (pos s)) in Heq by lia.
           rewrite Ho, Hc in Heq. lia.
      * cbn [pos]. intros i Hi. assert (i = pos s) by lia. subst i.
        intros (Hch & Hout & _).
        assert (Hb : Ascii.eqb (char_at t (pos s)) "]" = true)
          by (apply Ascii.eqb_eq; exact Hch).
        rewrite Hb, andb_true_r in Hclose. apply negb_false_iff in Hclose.
        rewrite (Hflag Hb), Hin, Hout in Hclose. discriminate.
Qed.

Lemma scan_loop_first_close (t : text) (escaped : bool) (a : nat) :
  forall fuel s r,
    scan_inv t escaped a s ->
    (forall i, a <= i < pos s -> ~ closes_at t escaped a i) ->
    scan_loop fuel t escaped s = Done r ->
    match r with
    | Some e =>
        pos s < e <= length t
        /\ closes_at t escaped a (e - 1)
        /\ forall i, a <= i < e - 1 -> ~ closes_at t escaped a i
    | None => forall i, a <= i < length t -> ~ closes_at t escaped a i
    end.
Proof.
  induction fuel as [|fuel IH]; intros s r Hinv Hbefore; cbn [scan_loop].
  - destruct (pos s <? length t) eqn:Hlt; [discriminate|].
    apply Nat.ltb_ge in Hlt. intros H; injection H as <-.
    intros i Hi. apply Hbefore. lia.
  - destruct (pos s <? length t) eqn:Hlt.
    + apply Nat.ltb_lt in Hlt.
      pose proof (scan_step_inv t escaped a s Hlt Hinv) as Hstep.
      pose proof (scan_step_close t escaped a s Hlt Hinv) as Hclose.
      destruct (scan_step t escaped s) as [s'|i].
      * destruct Hstep as [Hinv' Hadv]. intros H.
        assert (Hbefore' : forall i, a <= i < pos s' -> ~ closes_at t escaped a i).
        { intros i Hi. destruct (Nat.lt_ge_cases i (pos s)).
          - apply Hbefore. lia.
          - apply Hclose. lia. }
        specialize (IH s' r Hinv' Hbefore' H).
        destruct r as [e|]; [|exact IH].
        destruct IH as (Hr & Hc & Hm).
        split; [lia | split; assumption].
      * destruct Hstep as (-> & _). intros H. injection H as <-.
        replace (pos s + 1 - 1) with (pos s) by lia.
        split; [lia | split; [exact Hclose | exact Hbefore]].
    + apply Nat.ltb_ge in Hlt. intros H; injection H as <-.
      intros i Hi. apply Hbefore. lia.
Qed.

Lemma scan_array_stops (html_content : text) (escaped : bool)
  (array_start : nat) :
  match scan_array html_content escaped array_start with
  | Some array_end =>
      array_start < array_end <= length html_content
      /\ closes_at html_content escaped array_start (array_end - 1)
      /\ forall i, array_start <= i < array_end - 1 ->
                   ~ closes_at html_content escaped array_start i
  | None =>
      forall i, array_start <= i < length html_content ->
                ~ closes_at html_content escaped array_start i
  end.
Proof.
  pose proof (scan_array_done html_content escaped array_start
                (length html_content) (le_n _)) as Hd.
  apply (scan_loop_first_close html_content escaped array_start _ _ _
           (scan_inv_start html_content escaped array_start)) in Hd.
  - destruct (scan_array html_content escaped array_start); exact Hd.
  - cbn [pos]. intros i Hi. lia.
Qed.

(** X1.  The boundary scanner returns the offset just after the FIRST
    closing offset at or after [array_start] (a closing bracket outside
    string literals that brings the bracket count back to balance), and
    it reports failure exactly when the text has no closing offset. *)
Theorem scan_array_first_close (html_content : text) (escaped : bool)
  (array_start : nat) :
  match scan_array html_content escaped array_start with
  | Some array_end =>
      array_start < array_end <= length html_content
      /\ closes_at html_content escaped array_start (array_end - 1)
      /\ forall i, array_start <= i < array_end - 1 ->
                   ~ closes_at html_content escaped array_start i
  | None =>
      forall i, array_start <= i < length html_content ->
                ~ closes_at html_content escaped array_start i
  end.
Proof. apply scan_array_stops. Qed.

Lemma scan_array_first_close_witness :
  scan_array scanner_sample true 0 = Some 19
  /\ closes_at scanner_sample true 0 (19 - 1)
  /\ (forall i, 0 <= i < 19 - 1 -> ~ closes_at scanner_sample true 0 i).
Proof.
  split; [reflexivity|].
  pose proof (scan_array_first_close scanner_sample true 0) as H.
  change (scan_array scanner_sample true 0) with (Some 19) in H.
  exact (proj2 H).
Defined.

(** X2.  The span [extract_json_polls] hands to the decoder starts with
    the opening bracket the anchor ends with and ends with a closing
    bracket; it holds at least these two characters and lies inside the
    text. *)
Theorem located_span_is_bracketed (html_content : text)
  (start_pos array_start array_end : nat) (escaped : bool) :
  find_anchor html_content start_pos = Some (array_start, escaped) ->
  scan_array html_content escaped array_start = Some array_end ->
  char_at html_content array_start = "["
  /\ char_at html_content (array_end - 1) = "]"
  /\ array_start + 2 <= array_end <= length html_content
  /\ length (slice html_content array_start array_end) = array_end - array_start.
Proof.
  intros Ha Hs.
  pose proof (find_anchor_bracket _ _ _ _ Ha) as Hb.
  pose proof (scan_array_stops html_content escaped array_start) as Hc.
  rewrite Hs in Hc. destruct Hc as (Hr & (Hch & _) & _).
  assert (array_end - 1 <> array_start).
  { intros Heq. rewrite Heq, Hb in Hch. discriminate. }
  repeat split; try assumption; try lia.
  unfold slice. rewrite length_firstn, length_skipn. lia.
Qed.

Lemma located_span_is_bracketed_witness :
  char_at two_arrays_doc 12 = "["
  /\ char_at two_arrays_doc (33 - 1) = "]"
  /\ 12 + 2 <= 33 <= length two_arrays_doc
  /\ length (slice two_arrays_doc 12 33) = 33 - 12.
Proof.
  apply (located_span_is_bracketed two_arrays_doc 0 12 33 true); reflexivity.
Defined.

(** ** Un-escaping inverts the escaping of the payload *)

Lemma escape_not_quote (s : text) :
  startswith [DQ] (escape s) = false.
Proof.
  destruct s as [|c s]; [reflexivity|].
  unfold escape. cbn [flat_map]. unfold escape_char.
  destruct (Ascii.eqb c BS) eqn:Hb; [reflexivity|].
  destruct (Ascii.eqb c DQ) eqn:Hq; [reflexivity|].
  cbn [app startswith]. rewrite Ascii.eqb_sym, Hq. reflexivity.
Qed.

(** The first [replace]: every escaped quote loses its backslash, the
    doubled backslashes stay. *)
Lemma replace_quotes (s : text) :
  replace (escape s) [BS; DQ] [DQ]
  = flat_map (fun c => if Ascii.eqb c BS then [BS; BS] else [c]) s.
Proof.
  unfold replace. induction s as [|c s IH]; [reflexivity|].
  unfold escape in *. cbn [flat_map]. unfold escape_char at 1.
  destruct (Ascii.eqb c BS) eqn:Hb.
  - apply Ascii.eqb_eq in Hb. subst c.
    pose proof (escape_not_quote s) as Hn. unfold escape in Hn.
    cbn [app replace_from startswith andb]. cbn [startswith] in Hn.
    change (Ascii.eqb BS BS) with true. change (Ascii.eqb DQ BS) with false.
    cbn [andb].
    destruct (flat_map escape_char s) as [|x r] eqn:Hr.
    + cbn [replace_from] in *. rewrite <- IH. reflexivity.
    + cbn [startswith andb] in Hn |- *. rewrite Hn. cbn [andb].
      rewrite <- IH. reflexivity.
  - destruct (Ascii.eqb c DQ) eqn:Hq.
    + apply Ascii.eqb_eq in Hq. subst c.
      cbn [app replace_from startswith andb length Nat.sub].
      change (Ascii.eqb BS BS) with true. change (Ascii.eqb DQ DQ) with true.
      cbn [andb]. rewrite IH. reflexivity.
    + cbn [app replace_from startswith]. rewrite Ascii.eqb_sym, Hb.
      cbn [andb]. rewrite IH. reflexivity.
Qed.

(** The second [replace]: every doubled backslash becomes one. *)
Lemma replace_backslashes (s : text) :
  replace (flat_map (fun c => if Ascii.eqb c BS then [BS; BS] else [c]) s)
    [BS; BS] [BS]
  = s.
Proof.
  unfold replace. induction s as [|c s IH]; [reflexivity|].
  cbn [flat_map]. destruct (Ascii.eqb c BS) eqn:Hb.
  - apply Ascii.eqb_eq in Hb. subst c.
    cbn [app replace_from startswith andb length Nat.sub].
    change (Ascii.eqb BS BS) with true. cbn [andb]. rewrite IH. reflexivity.
  - cbn [app replace_from startswith]. rewrite Ascii.eqb_sym, Hb.
    cbn [andb]. rewrite IH. reflexivity.
Qed.

(** X3.  The two replacements of the decoder, in the order the code
    applies them (escaped quotes first, doubled backslashes second), give
    back every text that was escaped by putting a backslash in front of
    each backslash and each quote; a span found in unescaped form is left
    as it is. *)
Theorem unescape_escape (s : text) :
  unescape true (escape s) = s /\ unescape false s = s.
Proof.
  split; [|reflexivity].
  unfold unescape. rewrite replace_quotes. apply replace_backslashes.
Qed.

(** ** What the aggregator returns *)

Lemma only_dicts_all (polls : json) :
  forallb is_dict (only_dicts polls) = true.
Proof.
  destruct polls as [| | | | |items|d]; try reflexivity.
  cbn [only_dicts]. induction items as [|p items IH]; [reflexivity|].
  cbn [filter]. destruct (is_dict p) eqn:Hp; [|exact IH].
  cbn [forallb]. rewrite Hp, IH. reflexivity.
Qed.

Lemma extract_json_polls_dicts (t : text) (start_pos end_pos : nat)
  (polls : list json) :
  extract_json_polls t start_pos = Some (polls, end_pos) ->
  forallb is_dict polls = true.
Proof.
  unfold extract_json_polls, decode.
  destruct (find_anchor t start_pos) as [[array_start escaped]|]; [|discriminate].
  destruct (scan_array t escaped array_start) as [array_end|]; [|discriminate].
  destruct (json_loads _) as [v|]; [|discriminate].
  intros H; injection H as <- _. apply only_dicts_all.
Qed.

Lemma extract_all_polls_loop_dicts (t : text) :
  forall fuel start_pos all_polls r,
    forallb is_dict all_polls = true ->
    extract_all_polls_loop fuel t start_pos all_polls = Done r ->
    forallb is_dict r = true.
Proof.
  induction fuel as [|fuel IH]; intros start_pos all_polls r Hacc;
    [discriminate|].
  cbn [extract_all_polls_loop].
  destruct (extract_json_polls t start_pos) as [[polls end_pos]|] eqn:He.
  - apply IH. rewrite forallb_app, Hacc.
    apply (extract_json_polls_dicts _ _ _ _ He).
  - intros H; injection H as <-. exact Hacc.
Qed.

(** X4.  Whatever the document, a list returned by [extract_all_polls]
    is never empty and holds dicts only, so that on the primary path of
    [extract_poll_table] no [poll.get] of the normaliser can fail on the
    kind of [poll]. *)
Theorem extract_all_polls_dicts (html_content : text) (polls : list json) :
  extract_all_polls html_content = Some polls ->
  polls <> [] /\ forallb is_dict polls = true.
Proof.
  unfold extract_all_polls.
  destruct (extract_all_polls_loop _ html_content 0 []) as [|r] eqn:Hr;
    [discriminate|].
  apply extract_all_polls_loop_dicts in Hr; [|reflexivity].
  destruct r as [|p r]; [discriminate|].
  intros H; injection H as <-. split; [discriminate | exact Hr].
Qed.

Lemma extract_all_polls_dicts_witness :
  [JObj [(str "a", JInt 1)]] <> []
  /\ forallb is_dict [JObj [(str "a", JInt 1)]] = true.
Proof.
  apply (extract_all_polls_dicts placeholder_doc [JObj [(str "a", JInt 1)]]).
  reflexivity.
Defined.

(** ** When the normaliser raises *)

Lemma format_rows_raises (polls : list json) :
  forallb record_ok polls = false ->
  exists e, format_rows polls = Raise e.
Proof.
  induction polls as [|poll polls IH]; [discriminate|].
  cbn [forallb format_rows]. destruct (record_ok poll) eqn:Hp.
  - cbn [andb]. intros Hrest. destruct (IH Hrest) as [e He].
    destruct (format_poll poll) as [row|e'];
      [|eexists; reflexivity].
    cbn [bind]. rewrite He. eexists; reflexivity.
  - intros _. destruct (format_poll poll) as [row|e'] eqn:Hrow;
      [|eexists; reflexivity].
    exfalso. destruct (format_poll_inv _ _ Hrow) as (d & items & -> & Hi & Hok & _).
    cbn [record_ok] in Hp. rewrite Hi, Hok in Hp. discriminate.
Qed.

(** X5.  [format_polls_data] returns (rather than raises) exactly when
    every element of its input is a dict whose candidate field, if
    present, can be iterated and yields only dicts with a string or absent
    name; a single record outside that shape makes the whole call raise,
    and no absent field ever does. *)
Theorem format_polls_data_returns_iff (polls : list json) :
  (exists rows, format_polls_data polls = Ok (headers, rows))
  <-> forallb record_ok polls = true.
Proof.
  split.
  - intros [rows H]. destruct (forallb record_ok polls) eqn:Hok; [reflexivity|].
    destruct (format_rows_raises _ Hok) as [e He].
    unfold format_polls_data in H. rewrite He in H. discriminate.
  - intros Hok. destruct (format_rows_ok _ Hok) as (rows & Hrows & _).
    exists rows. unfold format_polls_data. rewrite Hrows. reflexivity.
Qed.

(** ** The three kinds of candidate entries *)

Lemma find_in_some (sub : text) :
  forall s k p, startswith sub (skipn k s) = true ->
                exists q, find_in sub s p = Some q.
Proof.
  induction s as [|c s IH]; intros k p H.
  - rewrite skipn_nil in H. cbn [find_in]. rewrite H. eauto.
  - cbn [find_in]. destruct (startswith sub (c :: s)) eqn:Hs; [eauto|].
    destruct k as [|k]; [cbn [skipn] in H; congruence|].
    cbn [skipn] in H. apply (IH k (S p) H).
Qed.

Lemma contains_occurs (sub s : text) :
  contains sub s = true <-> exists k, startswith sub (skipn k s) = true.
Proof.
  unfold contains. split.
  - destruct (find_in sub s 0) as [q|] eqn:Hf; [|discriminate].
    intros _. apply find_in_startswith in Hf. destruct Hf as [_ Hf]. eauto.
  - intros [k Hk]. destruct (find_in_some sub s k 0 Hk) as [q ->]. reflexivity.
Qed.

Lemma startswith_cons (x y : ascii) (sub s : text) :
  startswith (x :: sub) (y :: s) = Ascii.eqb x y && startswith sub s.
Proof. reflexivity. Qed.

(** Where "disapprove" stands, "approve" stands three characters on. *)
Lemma disapprove_holds_approve (u : text) :
  startswith (str "disapprove") u = true ->
  startswith (str "approve") (skipn 3 u) = true.
Proof.
  change (str "disapprove") with ("d" :: "i" :: "s" :: str "approve").
  destruct u as [|a [|b [|c r]]]; try discriminate.
  - rewrite startswith_cons. cbn [startswith]. rewrite andb_false_r. discriminate.
  - rewrite !startswith_cons. cbn [startswith]. rewrite !andb_false_r.
    discriminate.
  - rewrite !startswith_cons, !andb_true_iff. cbn [skipn]. tauto.
Qed.

Lemma contains_disapprove_approve (name : text) :
  contains (str "disapprove") name = true ->
  contains (str "approve") name = true.
Proof.
  rewrite !contains_occurs. intros [k Hk]. exists (3 + k).
  rewrite <- skipn_skipn. apply disapprove_holds_approve. exact Hk.
Qed.

(** X6.  The two tests of the candidate loop sort the entries it accepts
    into three kinds by the lower-cased name alone: a name without
    "approve" leaves both columns as they are; a name with "approve" but
    without "disapprove" overwrites the approve column only; a name with
    "disapprove" (which always contains "approve" as well, hence the
    second half of the first test) overwrites the disapprove column
    only. *)
Theorem candidate_step_kinds (approve disapprove candidate : json) :
  candidate_ok candidate = true ->
  let name := candidate_name candidate in
  (contains (str "approve") name = false ->
   candidate_step (approve, disapprove) candidate = Ok (approve, disapprove))
  /\ (contains (str "approve") name = true ->
      contains (str "disapprove") name = false ->
      candidate_step (approve, disapprove) candidate
      = Ok (candidate_value candidate, disapprove))
  /\ (contains (str "disapprove") name = true ->
      contains (str "approve") name = true
      /\ candidate_step (approve, disapprove) candidate
         = Ok (approve, candidate_value candidate)).
Proof.
  intros Hok name. rewrite (candidate_step_ok _ _ _ Hok).
  unfold names_approve, names_disapprove. fold name.
  split; [|split].
  - intros Hno.
    destruct (contains (str "disapprove") name) eqn:Hd.
    + apply contains_disapprove_approve in Hd. congruence.
    + rewrite Hno. reflexivity.
  - intros Ha Hd. rewrite Ha, Hd. reflexivity.
  - intros Hd. split; [apply contains_disapprove_approve; exact Hd|].
    rewrite Hd, andb_false_r. reflexivity.
Qed.

Lemma candidate_step_kinds_witness :
  candidate_step (EMPTY, EMPTY) (candidate_entry "Strongly DISAPPROVE" 55)
  = Ok (EMPTY, JInt 55).
Proof.
  apply (proj2 (proj2 (candidate_step_kinds EMPTY EMPTY
                         (candidate_entry "Strongly DISAPPROVE" 55)
                         eq_refl))).
  reflexivity.
Defined.

(** ** Normalising record lists one after the other *)

Lemma format_rows_app (polls1 polls2 : list json) :
  format_rows (polls1 ++ polls2)
  = (rows1 <- format_rows polls1 ;;
     rows2 <- format_rows polls2 ;;
     Ok (rows1 ++ rows2)).
Proof.
  induction polls1 as [|poll polls1 IH]; cbn [app format_rows bind].
  - destruct (format_rows polls2); reflexivity.
  - destruct (format_poll poll) as [row|e]; [|reflexivity]. cbn [bind].
    rewrite IH. destruct (format_rows polls1) as [rows1|e]; [|reflexivity].
    cbn [bind]. destruct (format_rows polls2); reflexivity.
Qed.

(** X7.  Rows are produced record by record: normalising two record
    lists one after the other gives the rows of the first followed by the
    rows of the second, and the first record that raises, in list order,
    decides the exception. *)
Theorem format_polls_data_app (polls1 polls2 : list json) :
  format_polls_data (polls1 ++ polls2)
  = match format_polls_data polls1 with
    | Raise e => Raise e
    | Ok (_, rows1) =>
        match format_polls_data polls2 with
        | Raise e => Raise e
        | Ok (_, rows2) => Ok (headers, rows1 ++ rows2)
        end
    end.
Proof.
  unfold format_polls_data. rewrite format_rows_app.
  destruct (format_rows polls1) as [rows1|e]; [|reflexivity]. cbn [bind].
  destruct (format_rows polls2); reflexivity.
Qed.

(** ** Which anchor the locator returns *)

Lemma find_in_least (sub : text) :
  forall s p q, find_in sub s p = Some q ->
                forall k, k < q - p -> startswith sub (skipn k s) = false.
Proof.
  induction s as [|c s IH]; intros p q; cbn [find_in].
  - destruct (startswith sub []); [|discriminate].
    intros H; injection H as <-. intros k Hk. lia.
  - destruct (startswith sub (c :: s)) eqn:Hs.
    + intros H; injection H as <-. intros k Hk. lia.
    + intros H [|k] Hk; [exact Hs|]. cbn [skipn].
      apply (IH (S p) q H). lia.
Qed.

Lemma find_in_none_all (sub s : text) (p : nat) :
  find_in sub s p = None -> forall k, startswith sub (skipn k s) = false.
Proof.
  intros H k. destruct (startswith sub (skipn k s)) eqn:Hs; [|reflexivity].
  destruct (find_in_some sub s k p Hs) as [q Hq]. congruence.
Qed.

(** [s.find(sub, start)] is the leftmost occurrence at or after [start]. *)
Lemma find_leftmost (s sub : text) (start : nat) :
  sub <> [] ->
  match find s sub start with
  | Some q =>
      start <= q /\ occurs_at sub s q
      /\ forall r, start <= r < q -> ~ occurs_at sub s r
  | None => forall r, start <= r -> ~ occurs_at sub s r
  end.
Proof.
  intros Hsub. unfold find, occurs_at.
  destruct (length s <? start) eqn:Hlen.
  - apply Nat.ltb_lt in Hlen. intros r Hr.
    rewrite skipn_all2 by lia. destruct sub; [congruence | discriminate].
  - destruct (find_in sub (skipn start s) start) as [q|] eqn:Hf.
    + pose proof (find_in_startswith _ _ _ _ Hf) as [Hle Hocc].
      pose proof (find_in_least _ _ _ _ Hf) as Hleast.
      rewrite skipn_skipn in Hocc.
      replace (q - start + start) with q in Hocc by lia.
      split; [exact Hle|]. split; [exact Hocc|].
      intros r Hr. specialize (Hleast (r - start) ltac:(lia)).
      rewrite skipn_skipn in Hleast.
      replace (r - start + start) with r in Hleast by lia.
      rewrite Hleast. discriminate.
    + intros r Hr. pose proof (find_in_none_all _ _ _ Hf (r - start)) as Hn.
      rewrite skipn_skipn in Hn.
      replace (r - start + start) with r in Hn by lia.
      rewrite Hn. discriminate.
Qed.

(** X8.  The locator returns the bracket of the leftmost escaped anchor
    at or after [start_pos] whenever an escaped anchor occurs there at
    all, however far; only when none does, the bracket of the leftmost
    unescaped anchor; and nothing exactly when neither form occurs at or
    after [start_pos]. *)
Theorem find_anchor_leftmost (html_content : text) (start_pos : nat) :
  match find_anchor html_content start_pos with
  | Some (array_start, true) =>
      exists polls_start,
        array_start = polls_start + escaped_key_len
        /\ start_pos <= polls_start
        /\ occurs_at escaped_anchor html_content polls_start
        /\ forall r, start_pos <= r < polls_start ->
                     ~ occurs_at escaped_anchor html_content r
  | Some (array_start, false) =>
      (forall r, start_pos <= r -> ~ occurs_at escaped_anchor html_content r)
      /\ exists polls_start,
          array_start = polls_start + unescaped_key_len
          /\ start_pos <= polls_start
          /\ occurs_at unescaped_anchor html_content polls_start
          /\ forall r, start_pos <= r < polls_start ->
                       ~ occurs_at unescaped_anchor html_content r
  | None =>
      forall r, start_pos <= r ->
                ~ occurs_at escaped_anchor html_content r
                /\ ~ occurs_at unescaped_anchor html_content r
  end.
Proof.
  unfold find_anchor.
  pose proof (find_leftmost html_content escaped_anchor start_pos
                ltac:(discriminate)) as He.
  pose proof (find_leftmost html_content unescaped_anchor start_pos
                ltac:(discriminate)) as Hu.
  destruct (find html_content escaped_anchor start_pos) as [p|].
  - exists p. tauto.
  - destruct (find html_content unescaped_anchor start_pos) as [p|].
    + split; [exact He|]. exists p. tauto.
    + intros r Hr. split; [apply He | apply Hu]; exact Hr.
Qed.

Lemma find_anchor_leftmost_witness :
  find_anchor mixed_doc 0 = Some (32, true)
  /\ exists polls_start,
      32 = polls_start + escaped_key_len
      /\ 0 <= polls_start
      /\ occurs_at escaped_anchor mixed_doc polls_start
      /\ forall r, 0 <= r < polls_start ->
                   ~ occurs_at escaped_anchor mixed_doc r.
Proof.
  split; [reflexivity|].
  pose proof (find_anchor_leftmost mixed_doc 0) as H.
  change (find_anchor mixed_doc 0) with (Some (32, true)) in H.
  exact H.
Defined.

(** ** The scanner looks at the array only *)

(** In unescaped form the only look behind is the one character before a
    quote; it stays inside [t] unless the quote is the first character. *)
Lemma scan_step_app_plain (pre t : text) (s : scan_state) :
  0 < pos s \/ char_at t (pos s) <> DQ ->
  scan_step (pre ++ t) false (shift_state (length pre) s)
  = match scan_step t false s with
    | Continue s' => Continue (shift_state (length pre) s')
    | Closed i => Closed (length pre + i)
    end.
Proof.
  intros Hlook. unfold scan_step, shift_state.
  cbn [pos bracket_count in_string andb negb].
  rewrite char_at_app.
  assert (Hbehind :
            Ascii.eqb (char_at t (pos s)) DQ = true ->
            (0 <? length pre + pos s)
            && Ascii.eqb (char_at (pre ++ t) (length pre + pos s - 1)) BS
            = (0 <? pos s) && Ascii.eqb (char_at t (pos s - 1)) BS).
  { intros Hq. apply Ascii.eqb_eq in Hq.
    destruct Hlook as [Hpos | Hno]; [|congruence].
    replace (length pre + pos s - 1) with (length pre + (pos s - 1)) by lia.
    rewrite char_at_app.
    replace (0 <? length pre + pos s) with true
      by (symmetry; apply Nat.ltb_lt; lia).
    replace (0 <? pos s) with true by (symmetry; apply Nat.ltb_lt; lia).
    reflexivity. }
  destruct (Ascii.eqb (char_at t (pos s)) DQ) eqn:Hq.
  - rewrite (Hbehind eq_refl).
    repeat match goal with
           | |- context [if ?b then _ else _] => destruct b
           end;
      cbn [pos bracket_count in_string]; try reflexivity;
      f_equal; f_equal; lia.
  - repeat match goal with
           | |- context [if ?b then _ else _] => destruct b
           end;
      cbn [pos bracket_count in_string]; try reflexivity;
      f_equal; f_equal; lia.
Qed.

Lemma scan_loop_app_any (pre t : text) (escaped : bool) :
  forall fuel s,
    escaped = true \/ 0 < pos s \/ char_at t (pos s) <> DQ ->
    scan_loop fuel (pre ++ t) escaped (shift_state (length pre) s)
    = match scan_loop fuel t escaped s with
      | Done (Some e) => Done (Some (length pre + e))
      | r => r
      end.
Proof.
  intros fuel s [-> | Hlook]; [apply scan_loop_app|].
  destruct escaped; [apply scan_loop_app|].
  revert s Hlook.
  induction fuel as [|fuel IH]; intros s Hlook; cbn [scan_loop];
    (replace (pos (shift_state (length pre) s) <? length (pre ++ t))
       with (pos s <? length t);
     [|rewrite length_app; unfold shift_state; cbn [pos];
       destruct (pos s <? length t) eqn:H; symmetry;
       [apply Nat.ltb_lt in H; apply Nat.ltb_lt; lia
       |apply Nat.ltb_ge in H; apply Nat.ltb_ge; lia]]).
  - destruct (pos s <? length t); reflexivity.
  - destruct (pos s <? length t); [|reflexivity].
    rewrite (scan_step_app_plain pre t s Hlook).
    destruct (scan_step t false s) as [s'|i] eqn:Hstep.
    + apply IH. left. apply scan_step_advances in Hstep. lia.
    + f_equal. f_equal. lia.
Qed.

(** X9.  Where an array ends does not depend on what stands before its
    opening bracket: with any text put in front, the scanner started on
    the same bracket returns the same end, moved by the length of that
    text, and fails when it failed.  (In escaped form this holds from any
    start offset; in unescaped form the start must not be a quote, which
    the bracket the locator returns never is.) *)
Theorem scan_array_prefix_independent (pre html_content : text)
  (escaped : bool) (array_start : nat) :
  escaped = true \/ char_at html_content array_start <> DQ ->
  scan_array (pre ++ html_content) escaped (length pre + array_start)
  = match scan_array html_content escaped array_start with
    | Some array_end => Some (length pre + array_end)
    | None => None
    end.
Proof.
  intros Hlook.
  pose proof (scan_array_done (pre ++ html_content) escaped
                (length pre + array_start)
                (length (pre ++ html_content)) (le_n _)) as H.
  change (mkScan (length pre + array_start) 0 false)
    with (shift_state (length pre) (mkScan array_start 0 false)) in H.
  rewrite scan_loop_app_any in H by (cbn [pos]; tauto).
  rewrite (scan_array_done html_content escaped array_start
             (length (pre ++ html_content))) in H
    by (rewrite length_app; lia).
  destruct (scan_array html_content escaped array_start);
    injection H as <-; reflexivity.
Qed.

Lemma scan_array_prefix_independent_witness :
  scan_array (str "<p>" ++ placeholder_doc) false (length (str "<p>") + 8)
  = Some (length (str "<p>") + 21).
Proof.
  apply (scan_array_prefix_independent (str "<p>") placeholder_doc false 8).
  right. discriminate.
Defined.

Lemma char_at_app_left (t post : text) (i : nat) :
  i < length t -> char_at (t ++ post) i = char_at t i.
Proof. intros H. unfold char_at. apply app_nth1. exact H. Qed.

(** An iteration that does not stand on a backslash in the last place of
    [t] reads nothing beyond [t]. *)
Lemma scan_step_app_right (t post : text) (escaped : bool) (s : scan_state) :
  pos s < length t ->
  pos s + 1 < length t \/ char_at t (pos s) <> BS \/ escaped = false ->
  scan_step (t ++ post) escaped s = scan_step t escaped s.
Proof.
  intros Hlen Hcase. unfold scan_step.
  rewrite (char_at_app_left t post (pos s) Hlen).
  assert (Hpair :
            escaped && (pos s + 1 <? length (t ++ post))
            && text_eqb (slice (t ++ post) (pos s) (pos s + 2)) [BS; DQ]
            = escaped && (pos s + 1 <? length t)
              && text_eqb (slice t (pos s) (pos s + 2)) [BS; DQ]).
  { destruct escaped; [|reflexivity]. cbn [andb].
    rewrite !slice_pair, (char_at_app_left t post (pos s) Hlen).
    destruct Hcase as [Hin | [Hno | Hf]]; [| |discriminate].
    - rewrite (char_at_app_left t post (pos s + 1) Hin).
      replace (pos s + 1 <? length (t ++ post)) with true
        by (symmetry; apply Nat.ltb_lt; rewrite length_app; lia).
      replace (pos s + 1 <? length t) with true
        by (symmetry; apply Nat.ltb_lt; lia).
      reflexivity.
    - replace (Ascii.eqb (char_at t (pos s)) BS) with false; [reflexivity|].
      symmetry. apply Ascii.eqb_neq. exact Hno. }
  rewrite Hpair.
  assert (Hbehind :
            (0 <? pos s) && Ascii.eqb (char_at (t ++ post) (pos s - 1)) BS
            = (0 <? pos s) && Ascii.eqb (char_at t (pos s - 1)) BS).
  { rewrite (char_at_app_left t post (pos s - 1)) by lia. reflexivity. }
  rewrite Hbehind. reflexivity.
Qed.

(** On a backslash in the last place of [t] the scanner, in escaped form,
    moves on to the end of [t]. *)
Lemma scan_step_last_backslash (t : text) (s : scan_state) :
  pos s + 1 = length t -> char_at t (pos s) = BS ->
  scan_step t true s
  = Continue (mkScan (pos s + 1) (bracket_count s) (in_string s)).
Proof.
  intros Hlast Hbs. unfold scan_step. rewrite Hbs.
  replace (pos s + 1 <? length t) with false
    by (symmetry; apply Nat.ltb_ge; lia).
  cbn [andb negb]. change (Ascii.eqb BS DQ) with false.
  change (Ascii.eqb BS "[") with false. change (Ascii.eqb BS "]") with false.
  destruct (in_string s); reflexivity.
Qed.

Lemma scan_loop_app_right (t post : text) (escaped : bool) :
  forall fuel s e,
    scan_loop fuel t escaped s = Done (Some e) ->
    scan_loop fuel (t ++ post) escaped s = Done (Some e).
Proof.
  induction fuel as [|fuel IH]; intros s e; cbn [scan_loop].
  - destruct (pos s <? length t); discriminate.
  - destruct (pos s <? length t) eqn:Hlt; [|discriminate].
    apply Nat.ltb_lt in Hlt.
    replace (pos s <? length (t ++ post)) with true
      by (symmetry; apply Nat.ltb_lt; rewrite length_app; lia).
    destruct (Nat.eq_dec (pos s + 1) (length t)) as [Hlast | Hin].
    + destruct (ascii_dec (char_at t (pos s)) BS) as [Hbs | Hno].
      * destruct escaped.
        -- rewrite (scan_step_last_backslash t s Hlast Hbs).
           intros H. exfalso. destruct fuel; cbn [scan_loop pos] in H;
             (replace (pos s + 1 <? length t) with false in H
               by (symmetry; apply Nat.ltb_ge; lia));
             discriminate.
        -- rewrite (scan_step_app_right t post false s Hlt) by tauto.
           destruct (scan_step t false s); [apply IH | auto].
      * rewrite (scan_step_app_right t post escaped s Hlt) by tauto.
        destruct (scan_step t escaped s); [apply IH | auto].
    + rewrite (scan_step_app_right t post escaped s Hlt) by (left; lia).
      destruct (scan_step t escaped s); [apply IH | auto].
Qed.

(** X10.  Where an array ends does not depend on what follows its closing
    bracket: when the scanner finds the end of an array in a text, it
    finds the same end in every text that continues it. *)
Theorem scan_array_suffix_independent (html_content post : text)
  (escaped : bool) (array_start array_end : nat) :
  scan_array html_content escaped array_start = Some array_end ->
  scan_array (html_content ++ post) escaped array_start = Some array_end.
Proof.
  intros H.
  pose proof (scan_array_done html_content escaped array_start
                (length (html_content ++ post))) as Hd.
  rewrite H in Hd. specialize (Hd ltac:(rewrite length_app; lia)).
  apply (scan_loop_app_right html_content post) in Hd.
  pose proof (scan_array_done (html_content ++ post) escaped array_start
                (length (html_content ++ post)) (le_n _)) as Hd'.
  congruence.
Qed.

Lemma scan_array_suffix_independent_witness :
  scan_array (scanner_sample ++ [BS; DQ; "]"]) true 0 = Some 19.
Proof.
  apply (scan_array_suffix_independent scanner_sample [BS; DQ; "]"] true 0 19).
  reflexivity.
Defined.

(** ** The aggregator and the arrays of the document *)

Lemma find_of_first (t sub : text) (c p : nat) :
  sub <> [] -> c <= p -> occurs_at sub t p ->
  (forall r, c <= r < p -> ~ occurs_at sub t r) ->
  find t sub c = Some p.
Proof.
  intros Hsub Hle Hocc Hfirst.
  pose proof (find_leftmost t sub c Hsub) as H.
  destruct (find t sub c) as [q|].
  - destruct H as (Hq & Hoq & Hlq). f_equal.
    destruct (Nat.lt_trichotomy q p) as [Hlt | [-> | Hgt]]; [|reflexivity|].
    + exfalso. apply (Hfirst q); [lia | exact Hoq].
    + exfalso. apply (Hlq p); [lia | exact Hocc].
  - exfalso. apply (H p Hle Hocc).
Qed.

Lemma find_none_of (t sub : text) (c : nat) :
  sub <> [] -> (forall r, c <= r -> ~ occurs_at sub t r) ->
  find t sub c = None.
Proof.
  intros Hsub Hnone. pose proof (find_leftmost t sub c Hsub) as H.
  destruct (find t sub c) as [q|]; [|reflexivity].
  destruct H as (Hq & Hoq & _). exfalso. apply (Hnone q Hq Hoq).
Qed.

Lemma find_anchor_of_first (t : text) (c p : nat) (escaped : bool) :
  first_anchor t c p escaped ->
  (escaped = false -> forall r, p <= r -> ~ occurs_at escaped_anchor t r) ->
  find_anchor t c = Some (p + key_len_of escaped, escaped).
Proof.
  intros (Hle & Hocc & Hfirst) Hside. unfold find_anchor.
  destruct escaped; cbn [anchor_of key_len_of] in *.
  - rewrite (find_of_first t escaped_anchor c p); [reflexivity | discriminate
                                                   | exact Hle | exact Hocc |].
    intros r Hr. apply (Hfirst r Hr).
  - rewrite (find_none_of t escaped_anchor c); [|discriminate|].
    + rewrite (find_of_first t unescaped_anchor c p);
        [reflexivity | discriminate | exact Hle | exact Hocc |].
      intros r Hr. apply (Hfirst r Hr).
    + intros r Hr. destruct (Nat.lt_ge_cases r p) as [Hlt | Hge].
      * apply (Hfirst r). lia.
      * apply (Hside eq_refl r Hge).
Qed.

Lemma find_anchor_none_of (t : text) (c : nat) :
  no_anchor_from t c -> find_anchor t c = None.
Proof.
  intros H. unfold find_anchor.
  rewrite (find_none_of t escaped_anchor c); [|discriminate|].
  - rewrite (find_none_of t unescaped_anchor c); [reflexivity|discriminate|].
    intros r Hr. apply (H r Hr).
  - intros r Hr. apply (H r Hr).
Qed.

Lemma scan_array_of_span (t : text) (escaped : bool) (a e : nat) :
  array_span t escaped a e -> scan_array t escaped a = Some e.
Proof.
  intros (Hlt & Hclose & Hfirst).
  pose proof (scan_array_stops t escaped a) as H.
  destruct (scan_array t escaped a) as [e'|].
  - destruct H as (Hr & Hc' & Hf'). f_equal.
    destruct (Nat.lt_trichotomy (e' - 1) (e - 1)) as [Hl | [He | Hg]].
    + exfalso. apply (Hfirst (e' - 1)); [lia | exact Hc'].
    + lia.
    + exfalso. apply (Hf' (e - 1)); [lia | exact Hclose].
  - exfalso. destruct Hclose as (Hch & Hrest).
    assert (He : e - 1 < length t).
    { destruct (Nat.lt_ge_cases (e - 1) (length t)) as [Hl|Hg]; [exact Hl|].
      unfold char_at in Hch. rewrite nth_overflow in Hch by lia. discriminate. }
    apply (H (e - 1)); [lia | split; assumption].
Qed.

Lemma array_span_of_scan (t : text) (escaped : bool) (a e : nat) :
  scan_array t escaped a = Some e -> array_span t escaped a e.
Proof.
  intros Hs. pose proof (scan_array_stops t escaped a) as H.
  rewrite Hs in H. destruct H as (Hr & Hc & Hf).
  split; [lia | split; assumption].
Qed.

(** The calls of the aggregator find the arrays of the document one by
    one. *)
Lemma document_arrays_discovered (t : text) (c : nat)
  (arrays : list (list json)) :
  document_arrays t c arrays ->
  exists found, discovered t c found /\ map fst found = arrays.
Proof.
  induction 1 as [c Hnone
                 | c p e escaped polls rest Hfirst Hside Hspan Hdec _ IH].
  - exists []. split; [|reflexivity]. apply discovered_stop.
    unfold extract_json_polls. rewrite (find_anchor_none_of _ _ Hnone).
    reflexivity.
  - destruct IH as (found & Hfound & Hmap).
    exists ((polls, e) :: found). split; [|cbn [map fst]; rewrite Hmap; reflexivity].
    apply discovered_next; [|exact Hfound].
    unfold extract_json_polls.
    rewrite (find_anchor_of_first _ _ _ _ Hfirst Hside).
    rewrite (scan_array_of_span _ _ _ _ Hspan), Hdec. reflexivity.
Qed.

Lemma calls_discovered (t : text) (start_pos stop : nat)
  (before after : list (list json * nat)) :
  calls t start_pos before stop ->
  discovered t stop after ->
  discovered t start_pos (before ++ after).
Proof.
  induction 1 as [start_pos | start_pos end_pos stop polls rest He _ IH];
    intros Hafter; [exact Hafter|].
  cbn [app]. apply discovered_next; [exact He | apply IH; exact Hafter].
Qed.

(** Reading the facts about a concrete document off what [find] and
    [scan_array] compute on it. *)
Lemma first_anchor_escaped_of_find (t : text) (c p : nat) :
  find t escaped_anchor c = Some p ->
  find t unescaped_anchor c = None ->
  first_anchor t c p true.
Proof.
  intros He Hu.
  pose proof (find_leftmost t escaped_anchor c ltac:(discriminate)) as H1.
  pose proof (find_leftmost t unescaped_anchor c ltac:(discriminate)) as H2.
  rewrite He in H1. rewrite Hu in H2. destruct H1 as (Hle & Hocc & Hfirst).
  split; [exact Hle|]. split; [exact Hocc|].
  intros r Hr. split; [apply Hfirst; exact Hr | apply H2; lia].
Qed.

Lemma no_anchor_from_of_find (t : text) (c : nat) :
  find t escaped_anchor c = None ->
  find t unescaped_anchor c = None ->
  no_anchor_from t c.
Proof.
  intros He Hu.
  pose proof (find_leftmost t escaped_anchor c ltac:(discriminate)) as H1.
  pose proof (find_leftmost t unescaped_anchor c ltac:(discriminate)) as H2.
  rewrite He in H1. rewrite Hu in H2.
  intros r Hr. split; [apply H1 | apply H2]; exact Hr.
Qed.

(** C5, amended.  For every document whose arrays, listed in document
    order from the text alone (each array belongs to the first anchor of
    either form at or after the end of the array before it, and spans
    from the bracket of that anchor to the first bracket that closes it
    outside string literals), all decode, and in which no escaped anchor
    stands after an unescaped one, [extract_all_polls] returns the
    concatenation of the decoded records of these arrays in document
    order: all records of the first array before all records of the
    second, and so on; or [None] when that concatenation is empty. *)
Theorem extract_all_polls_document_order (html_content : text)
  (arrays : list (list json)) :
  document_arrays html_content 0 arrays ->
  extract_all_polls html_content = nonempty_or_none (concat arrays).
Proof.
  intros H. destruct (document_arrays_discovered _ _ _ H) as (found & Hf & <-).
  apply extract_all_polls_discovered. exact Hf.
Qed.

Lemma extract_all_polls_document_order_witness :
  document_arrays two_arrays_doc 0
    [[JObj [(str "a", JInt 1)]; JObj [(str "b", JInt 2)]];
     [JObj [(str "c", JInt 3)]]]
  /\ extract_all_polls two_arrays_doc
     = Some [JObj [(str "a", JInt 1)]; JObj [(str "b", JInt 2)];
             JObj [(str "c", JInt 3)]].
Proof.
  assert (H : document_arrays two_arrays_doc 0
                [[JObj [(str "a", JInt 1)]; JObj [(str "b", JInt 2)]];
                 [JObj [(str "c", JInt 3)]]]).
  { apply (arrays_next two_arrays_doc 0 2 33 true).
    - apply first_anchor_escaped_of_find; reflexivity.
    - discriminate.
    - apply array_span_of_scan. reflexivity.
    - reflexivity.
    - apply (arrays_next two_arrays_doc 33 36 57 true).
      + apply first_anchor_escaped_of_find; reflexivity.
      + discriminate.
      + apply array_span_of_scan. reflexivity.
      + reflexivity.
      + apply arrays_end. apply no_anchor_from_of_find; reflexivity. }
  split; [exact H|].
  apply (extract_all_polls_document_order two_arrays_doc _ H).
Defined.

(** C10.  When the located span parses as a JSON list none of whose
    elements is an object, [extract_json_polls] returns the empty record
    list together with the end offset of the span, not the not-found
    value; the loop of [extract_all_polls] then goes on from that offset
    with its accumulator unchanged; and the result of [extract_all_polls]
    is made of the records found before that span followed by the records
    of every array found after it, so a later array is not lost. *)
Theorem extract_json_polls_no_object (html_content : text)
  (start_pos array_start array_end : nat) (escaped : bool) (items : list json) :
  find_anchor html_content start_pos = Some (array_start, escaped) ->
  scan_array html_content escaped array_start = Some array_end ->
  json_loads (unescape escaped (slice html_content array_start array_end))
  = Some (JArr items) ->
  forallb (fun p => negb (is_dict p)) items = true ->
  extract_json_polls html_content start_pos = Some ([], array_end)
  /\ (forall fuel all_polls,
         extract_all_polls_loop (S fuel) html_content start_pos all_polls
         = extract_all_polls_loop fuel html_content array_end all_polls)
  /\ (forall before after,
         calls html_content 0 before start_pos ->
         discovered html_content array_end after ->
         extract_all_polls html_content
         = nonempty_or_none (concat (map fst before) ++ concat (map fst after))).
Proof.
  intros Ha Hs Hj Hnone.
  assert (Hf : filter is_dict items = []).
  { clear Hj. induction items as [|p items IH]; [reflexivity|].
    simpl in Hnone |- *. apply andb_true_iff in Hnone. destruct Hnone as [Hp Hr].
    apply negb_true_iff in Hp. rewrite Hp. apply IH. exact Hr. }
  assert (Hx : extract_json_polls html_content start_pos = Some ([], array_end)).
  { unfold extract_json_polls, decode. rewrite Ha, Hs, Hj. simpl. rewrite Hf.
    reflexivity. }
  split; [exact Hx|]. split.
  - intros fuel all_polls. simpl. rewrite Hx, app_nil_r. reflexivity.
  - intros before after Hbefore Hafter.
    rewrite (extract_all_polls_discovered html_content
               (before ++ ([], array_end) :: after)).
    + rewrite map_app, concat_app. reflexivity.
    + apply (calls_discovered _ _ _ _ _ Hbefore).
      apply discovered_next; [exact Hx | exact Hafter].
Qed.

Lemma extract_json_polls_no_object_witness :
  extract_json_polls placeholder_doc 0 = Some ([], 21)
  /\ extract_json_polls placeholder_doc 21 = Some ([JObj [(str "a", JInt 1)]], 39)
  /\ extract_all_polls placeholder_doc = Some [JObj [(str "a", JInt 1)]].
Proof.
  pose proof (extract_json_polls_no_object placeholder_doc 0 8 21 false
                [JStr (str "$1f"); JStr (str "$20")]
                eq_refl eq_refl eq_refl eq_refl) as (H1 & _ & H3).
  split; [exact H1|]. split; [reflexivity|].
  apply (H3 [] [([JObj [(str "a", JInt 1)]], 39)]).
  - apply calls_none.
  - apply discovered_next; [reflexivity|]. apply discovered_stop. reflexivity.
Defined.
